(** * libsonare-homepage: the stream-analyzer composable and the WASM binding layer

    A shallow embedding of
    - [src/composables/useStreamAnalyzer.ts]: the chord-progression pattern
      detector, the capped per-feature histories and the published estimate;
    - [src/wasm/index.js]: the module-level initialisation state, the guarded
      exports and the [StreamAnalyzer] wrapper class.

    JavaScript numbers that hold pitch classes, qualities and indices are
    integers and are modelled as [Z]; the match counter of the detector only
    ever holds multiples of one half and its quotient by the pattern length is
    a dyadic rational, both exact in binary64, so they are modelled as [Q];
    the numeric fields that come out of the native analyzer are binary64
    floats and are modelled as [float]. *)

From Stdlib Require Import String Ascii Bool Arith ZArith QArith Lia Floats List.
Import ListNotations.

Set Warnings "-inexact-float,-register-all".
Local Open Scope Z_scope.

(* ====================================================================== *)
(** ** Chord-progression pattern detector (useStreamAnalyzer.ts) *)
(* ====================================================================== *)

Module Progression.

(** Element type of the [barChords] argument: [{ root: number; quality: number }]. *)
Record Chord : Type := mkChord { root : Z; quality : Z }.

(** Element of the local [degrees] array: [{ degree, quality }]. *)
Record DegreeChord : Type := mkDegree { degree : Z; dquality : Z }.

(** [interface ProgressionDef]: i18n key and the [degree, quality] pairs. *)
Record ProgressionDef : Type := mkDef { pd_key : string; pd_pattern : list (Z * Z) }.

(** [interface ChordProgressionPattern]. *)
Record ChordProgressionPattern : Type := mkResult {
  cpp_key : string;
  cpp_degrees : string;
  cpp_confidence : Q
}.

Definition DEGREE_NAMES : list string :=
  ["I"; "bII"; "II"; "bIII"; "III"; "IV"; "bV"; "V"; "bVI"; "VI"; "bVII"; "VII"]%string.

Definition PROGRESSION_PATTERNS : list ProgressionDef :=
  [ mkDef "royalRoad" [(0, 0); (7, 0); (9, 1); (5, 0)];
    mkDef "komuro"    [(9, 1); (5, 0); (7, 0); (0, 0)];
    mkDef "canon"     [(0, 0); (7, 0); (9, 1); (4, 1)];
    mkDef "popPunk"   [(0, 0); (7, 0); (5, 0); (9, 1)];
    mkDef "fifties"   [(0, 0); (9, 1); (5, 0); (7, 0)];
    mkDef "sad"       [(9, 1); (5, 0); (0, 0); (7, 0)];
    mkDef "blues"     [(0, 0); (5, 0); (0, 0); (7, 0)] ].

(** [(chordRoot - keyRoot + 12) % 12]; the JavaScript [%] truncates towards
    zero, which is [Z.rem]. *)
Definition chordToDegree (chordRoot keyRoot : Z) : Z :=
  Z.rem (chordRoot - keyRoot + 12) 12.

(** [Array.prototype.slice(-n)]: the last [n] elements, or the whole array
    when it is shorter. *)
Definition slice_last {A : Type} (n : nat) (l : list A) : list A :=
  skipn (length l - n)%nat l.

(** [recentChords.map(bc => ({ degree: ..., quality: bc.quality }))] after
    [barChords.slice(-8)]. *)
Definition toDegrees (barChords : list Chord) (keyRoot : Z) : list DegreeChord :=
  map (fun bc => mkDegree (chordToDegree (root bc) keyRoot) (quality bc))
      (slice_last 8 barChords).

(** The [qualityMatch] expression of the innermost loop. *)
Definition qualityMatch (actualQuality expectedQuality : Z) : bool :=
  (actualQuality =? expectedQuality)
  || ((expectedQuality <=? 1) && (actualQuality <=? 1)).

(** Body of [for (let i = 0; i < patternLen; i++)]: the new value of
    [matches].  The loop bounds keep both indices in range (lemma
    [window_index_in_range]), so the defaults of [nth] are never read. *)
Definition scoreStep (pat : list (Z * Z)) (degrees : list DegreeChord)
    (start : nat) (matches : Q) (i : nat) : Q :=
  let '(expectedDegree, expectedQuality) := nth i pat (0, 0) in
  let actual := nth (start + i) degrees (mkDegree 0 0) in
  if degree actual =? expectedDegree then
    if qualityMatch (dquality actual) expectedQuality
    then (matches + 1)%Q
    else (matches + (1 # 2))%Q
  else matches.

(** [matches] after the innermost loop, started at [0]. *)
Definition matchesAt (pat : list (Z * Z)) (degrees : list DegreeChord)
    (start : nat) : Q :=
  fold_left (scoreStep pat degrees start) (seq 0 (length pat)) 0%Q.

(** [const confidence = matches / patternLen]. *)
Definition confidenceAt (pat : list (Z * Z)) (degrees : list DegreeChord)
    (start : nat) : Q :=
  (matchesAt pat degrees start / inject_Z (Z.of_nat (length pat)))%Q.

(** The local [bestMatch]: [{ pattern, confidence } | null]. *)
Definition BestMatch : Type := option (ProgressionDef * Q).

(** [confidence >= 0.5 && (!bestMatch || confidence > bestMatch.confidence)]. *)
Definition improves (bestMatch : BestMatch) (confidence : Q) : bool :=
  Qle_bool (1 # 2) confidence
  && match bestMatch with
     | None => true
     | Some (_, c) => negb (Qle_bool confidence c)
     end.

(** Body of [for (let start = 0; start <= degrees.length - patternLen; start++)]. *)
Definition tryStart (patternDef : ProgressionDef) (degrees : list DegreeChord)
    (bestMatch : BestMatch) (start : nat) : BestMatch :=
  let confidence := confidenceAt (pd_pattern patternDef) degrees start in
  if improves bestMatch confidence then Some (patternDef, confidence) else bestMatch.

(** The values taken by [start]: [0 .. degrees.length - patternLen], none when
    the difference is negative. *)
Definition startOffsets (patternDef : ProgressionDef) (degrees : list DegreeChord)
    : list nat :=
  seq 0 (length degrees + 1 - length (pd_pattern patternDef))%nat.

(** Body of [for (const patternDef of PROGRESSION_PATTERNS)]. *)
Definition tryPattern (degrees : list DegreeChord) (bestMatch : BestMatch)
    (patternDef : ProgressionDef) : BestMatch :=
  fold_left (tryStart patternDef degrees) (startOffsets patternDef degrees) bestMatch.

Definition findBestMatch (patterns : list ProgressionDef)
    (degrees : list DegreeChord) : BestMatch :=
  fold_left (tryPattern degrees) patterns None.

(** [String.prototype.toLowerCase] on the ASCII range. *)
Definition lower_ascii (c : ascii) : ascii :=
  let n := nat_of_ascii c in
  if ((65 <=? n) && (n <=? 90))%nat then ascii_of_nat (n + 32) else c.

Fixpoint toLowerCase (s : string) : string :=
  match s with
  | EmptyString => EmptyString
  | String c s' => String (lower_ascii c) (toLowerCase s')
  end.

(** [Array.prototype.join(sep)]. *)
Fixpoint join (sep : string) (l : list string) : string :=
  match l with
  | [] => EmptyString
  | [x] => x
  | x :: rest => (x ++ sep ++ join sep rest)%string
  end.

(** [bestMatch.pattern.pattern.map(([deg, qual]) => ...).join('-')].  The
    degrees of the seven templates all index [DEGREE_NAMES] in range. *)
Definition degreeStr (patternDef : ProgressionDef) : string :=
  join "-"
    (map (fun dq : Z * Z =>
            let base := nth (Z.to_nat (fst dq)) DEGREE_NAMES EmptyString in
            if snd dq =? 1 then (toLowerCase base ++ "m")%string else base)
         (pd_pattern patternDef)).

Definition report (patternDef : ProgressionDef) (confidence : Q)
    : ChordProgressionPattern :=
  mkResult (pd_key patternDef) (degreeStr patternDef) confidence.

(** The detector over an arbitrary template list. *)
Definition detectWith (patterns : list ProgressionDef)
    (barChords : list Chord) (keyRoot : Z) : option ChordProgressionPattern :=
  if (length barChords <? 4)%nat then None
  else
    match findBestMatch patterns (toDegrees barChords keyRoot) with
    | Some (patternDef, confidence) => Some (report patternDef confidence)
    | None => None
    end.

(** [function detectProgressionPattern(barChords, keyRoot)]. *)
Definition detectProgressionPattern (barChords : list Chord) (keyRoot : Z)
    : option ChordProgressionPattern :=
  detectWith PROGRESSION_PATTERNS barChords keyRoot.

(** *** Vocabulary of the statements about the detector *)

(** The chords that lie under a template slid to offset [start]. *)
Definition window (pat : list (Z * Z)) (degrees : list DegreeChord) (start : nat)
    : list DegreeChord :=
  firstn (length pat) (skipn start degrees).

(** A step that counts for one: same degree, and the same quality or both
    qualities among major (0) and minor (1). *)
Definition fullStep (e : Z * Z) (a : DegreeChord) : bool :=
  (degree a =? fst e)
  && ((dquality a =? snd e) || ((snd e <=? 1) && (dquality a <=? 1))).

(** A step that counts for one half: same degree, different qualities, one
    of them beyond minor. *)
Definition halfStep (e : Z * Z) (a : DegreeChord) : bool :=
  (degree a =? fst e)
  && negb (dquality a =? snd e)
  && ((1 <? snd e) || (1 <? dquality a)).

Definition countSteps (p : Z * Z -> DegreeChord -> bool)
    (pat : list (Z * Z)) (w : list DegreeChord) : nat :=
  length (filter (fun ea => p (fst ea) (snd ea)) (combine pat w)).

(** One point per full step and half a point per half step. *)
Definition scoredMatches (pat : list (Z * Z)) (w : list DegreeChord) : Q :=
  (inject_Z (Z.of_nat (countSteps fullStep pat w))
   + (1 # 2) * inject_Z (Z.of_nat (countSteps halfStep pat w)))%Q.

(** The score of one step in the words of the specification: 1 for an exact
    degree and quality match, 0.5 for a degree match whose quality differs,
    0 without a degree match. *)
Definition spec_stepScore (e : Z * Z) (a : DegreeChord) : Q :=
  if degree a =? fst e
  then if dquality a =? snd e then 1%Q else (1 # 2)%Q
  else 0%Q.

Definition spec_matchesAt (pat : list (Z * Z)) (degrees : list DegreeChord)
    (start : nat) : Q :=
  fold_left (fun m ea => (m + spec_stepScore (fst ea) (snd ea))%Q)
            (combine pat (window pat degrees start)) 0%Q.

(** An offset at which the template fits inside the recent chords. *)
Definition validOffset (def : ProgressionDef) (degrees : list DegreeChord)
    (start : nat) : Prop :=
  (start + length (pd_pattern def) <= length degrees)%nat.

(** The (template, offset) pairs in the order in which the two outer loops
    visit them. *)
Definition candidates (patterns : list ProgressionDef) (degrees : list DegreeChord)
    : list (ProgressionDef * nat) :=
  flat_map (fun def => map (pair def) (startOffsets def degrees)) patterns.

Definition candidateConfidence (degrees : list DegreeChord)
    (c : ProgressionDef * nat) : Q :=
  confidenceAt (pd_pattern (fst c)) degrees (snd c).

Definition tryCandidate (degrees : list DegreeChord) (bestMatch : BestMatch)
    (c : ProgressionDef * nat) : BestMatch :=
  tryStart (fst c) degrees bestMatch (snd c).

(** What [bestMatch] holds once the candidates [seen] have been visited:
    nothing when none reaches one half; otherwise the first of the candidates
    of greatest confidence. *)
Definition Selected (degrees : list DegreeChord)
    (seen : list (ProgressionDef * nat)) (bestMatch : BestMatch) : Prop :=
  match bestMatch with
  | None => forall c, In c seen -> (candidateConfidence degrees c < 1 # 2)%Q
  | Some (def, q) =>
      exists n start,
        nth_error seen n = Some (def, start)
        /\ q = candidateConfidence degrees (def, start)
        /\ (1 # 2 <= q)%Q
        /\ (forall c, In c seen -> (candidateConfidence degrees c <= q)%Q)
        /\ (forall j c, (j < n)%nat -> nth_error seen j = Some c ->
                        (candidateConfidence degrees c < q)%Q)
  end.

(** Number of elements that [flat_map] emits for the first [p] inputs. *)
Definition emittedBefore {A B : Type} (f : A -> list B) (l : list A) (p : nat) : nat :=
  length (flat_map f (firstn p l)).

(** The first template, I-V-VIm-IV, and C minor, G minor, A major, F minor:
    its degrees in the key of C with major and minor exchanged. *)
Definition royalRoadPattern : list (Z * Z) := [(0, 0); (7, 0); (9, 1); (5, 0)].

Definition exchangedQualities : list Chord :=
  [mkChord 0 1; mkChord 7 1; mkChord 9 0; mkChord 5 1].

(** I-V-VIm-IV followed by I-V-VIm-IIIm in the key of C. *)
Definition royalRoadThenCanon : list Chord :=
  [mkChord 0 0; mkChord 7 0; mkChord 9 1; mkChord 5 0;
   mkChord 0 0; mkChord 7 0; mkChord 9 1; mkChord 4 1].

(** C diminished, G diminished, A major, F minor. *)
Definition diminishedTwice : list Chord :=
  [mkChord 0 2; mkChord 7 2; mkChord 9 0; mkChord 5 1].

(** The four bar-chords of I-V-VIm-IV in the key of [k]. *)
Definition royalRoadIn (k : Z) : list Chord :=
  [ mkChord ((k + 0) mod 12) 0; mkChord ((k + 7) mod 12) 0;
    mkChord ((k + 9) mod 12) 1; mkChord ((k + 5) mod 12) 0 ].

(** A chord moved up by [t] semitones, its root kept among the pitch
    classes. *)
Definition transpose (t : Z) (c : Chord) : Chord :=
  mkChord ((root c + t) mod 12) (quality c).

(** The degree and quality of a chord of the recent window, as a pair. *)
Definition degreePair (a : DegreeChord) : Z * Z := (degree a, dquality a).

(** The key and rendering of each template. *)
Definition RENDERINGS : list (string * string) :=
  [ ("royalRoad", "I-V-vim-IV"); ("komuro", "vim-IV-V-I");
    ("canon", "I-V-vim-iiim"); ("popPunk", "I-V-IV-vim");
    ("fifties", "I-vim-IV-V"); ("sad", "vim-IV-I-V");
    ("blues", "I-IV-I-V") ]%string.

End Progression.


(* ====================================================================== *)
(** ** Histories and published estimate (useStreamAnalyzer.ts) *)
(* ====================================================================== *)

Module Composable.

Import Progression.

(** A [Float32Array] by value; [new Float32Array(a)] copies [a]. *)
Definition Float32Array : Type := list float.
Definition Int32Array : Type := list Z.

(** [interface FrameBuffer] (wasm/index.d.ts). *)
Record FrameBuffer : Type := mkFrameBuffer {
  nFrames : Z;
  timestamps : Float32Array;
  mel : Float32Array;
  chroma : Float32Array;
  onsetStrength : Float32Array;
  rmsEnergy : Float32Array;
  spectralCentroid : Float32Array;
  spectralFlatness : Float32Array;
  fb_chordRoot : Int32Array;
  fb_chordQuality : Int32Array;
  fb_chordConfidence : Float32Array
}.

(** The seven closure variables [chromaHistory] ... [onsetStrengthHistory],
    each a [Float32Array[]]. *)
Record Histories : Type := mkHistories {
  chromaHistory : list Float32Array;
  rmsHistory : list Float32Array;
  melHistory : list Float32Array;
  timestampHistory : list Float32Array;
  spectralCentroidHistory : list Float32Array;
  spectralFlatnessHistory : list Float32Array;
  onsetStrengthHistory : list Float32Array
}.

(** [Array.prototype.push] and [Array.prototype.shift] (which leaves an empty
    array empty). *)
Definition push {A : Type} (l : list A) (x : A) : list A := l ++ [x].
Definition shift {A : Type} (l : list A) : list A := tl l.

Definition maxChunks : nat := 300.

(** The seven [push] statements of [accumulateFrames]. *)
Definition pushFrames (frames : FrameBuffer) (h : Histories) : Histories :=
  {| chromaHistory := push (chromaHistory h) (chroma frames);
     rmsHistory := push (rmsHistory h) (rmsEnergy frames);
     melHistory := push (melHistory h) (mel frames);
     timestampHistory := push (timestampHistory h) (timestamps frames);
     spectralCentroidHistory := push (spectralCentroidHistory h) (spectralCentroid frames);
     spectralFlatnessHistory := push (spectralFlatnessHistory h) (spectralFlatness frames);
     onsetStrengthHistory := push (onsetStrengthHistory h) (onsetStrength frames) |}.

(** Body of the [while] loop: one [shift] per array. *)
Definition shiftAll (h : Histories) : Histories :=
  {| chromaHistory := shift (chromaHistory h);
     rmsHistory := shift (rmsHistory h);
     melHistory := shift (melHistory h);
     timestampHistory := shift (timestampHistory h);
     spectralCentroidHistory := shift (spectralCentroidHistory h);
     spectralFlatnessHistory := shift (spectralFlatnessHistory h);
     onsetStrengthHistory := shift (onsetStrengthHistory h) |}.

(** [while (chromaHistory.length > maxChunks) { ... }], at most [fuel]
    iterations. *)
Fixpoint evictLoop (fuel : nat) (h : Histories) : Histories :=
  match fuel with
  | O => h
  | S fuel' =>
      if (maxChunks <? length (chromaHistory h))%nat
      then evictLoop fuel' (shiftAll h)
      else h
  end.

(** [function accumulateFrames(frames)].  Every iteration of the loop removes
    one chunk of [chromaHistory], so its length is fuel enough (lemma
    [evictLoop_exits]). *)
Definition accumulateFrames (frames : FrameBuffer) (h : Histories) : Histories :=
  if nFrames frames =? 0 then h
  else
    let h1 := pushFrames frames h in
    evictLoop (length (chromaHistory h1)) h1.

(** The seven [xHistory.length = 0] statements of [reset] and [reinit], which
    is also the state in which the composable is created. *)
Definition clearHistories : Histories := mkHistories [] [] [] [] [] [] [].

(** [interface BarChord] (wasm/index.d.ts). *)
Record BarChord : Type := mkBarChord {
  bc_barIndex : Z;
  bc_root : Z;
  bc_quality : Z;
  bc_startTime : float;
  bc_confidence : float
}.

(** [interface ChordChange] and [interface PatternScore] (wasm/index.d.ts). *)
Record ChordChange : Type := mkChordChange {
  cc_root : Z; cc_quality : Z; cc_startTime : float; cc_confidence : float
}.
Record PatternScore : Type := mkPatternScore { ps_name : string; ps_score : float }.

(** [interface ProgressiveEstimate] (wasm/index.d.ts). *)
Record ProgressiveEstimate : Type := mkProgressiveEstimate {
  pe_bpm : float;
  pe_bpmConfidence : float;
  pe_bpmCandidateCount : Z;
  pe_key : Z;
  pe_keyMinor : bool;
  pe_keyConfidence : float;
  pe_chordRoot : Z;
  pe_chordQuality : Z;
  pe_chordConfidence : float;
  pe_chordProgression : list ChordChange;
  pe_barChordProgression : list BarChord;
  pe_currentBar : Z;
  pe_barDuration : float;
  pe_votedPattern : list BarChord;
  pe_patternLength : Z;
  pe_detectedPatternName : string;
  pe_detectedPatternScore : float;
  pe_allPatternScores : list PatternScore;
  pe_accumulatedSeconds : float;
  pe_usedFrames : Z;
  updated : bool
}.

(** [interface BarChordInfo]. *)
Record BarChordInfo : Type := mkBarChordInfo {
  bci_barIndex : Z;
  bci_chord : string;
  bci_startTime : float;
  bci_confidence : float
}.

(** [interface StreamEstimate]: the value held by the [estimate] ref. *)
Record StreamEstimate : Type := mkStreamEstimate {
  se_bpm : float;
  se_bpmConfidence : float;
  se_key : string;
  se_keyConfidence : float;
  se_chord : string;
  se_chordConfidence : float;
  se_barChordProgression : list BarChordInfo;
  se_votedPattern : list string;
  se_detectedPatternName : string;
  se_detectedPatternScore : float;
  se_progressionPattern : option ChordProgressionPattern;
  se_currentBar : Z;
  se_barDuration : float;
  se_accumulatedSeconds : float
}.

Definition NOTE_NAMES : list string :=
  ["C"; "C#"; "D"; "D#"; "E"; "F"; "F#"; "G"; "G#"; "A"; "A#"; "B"]%string.

Definition CHORD_QUALITY_NAMES : list string :=
  [EmptyString; "m"; "dim"; "aug"; "7"; "M7"; "m7"; "sus2"; "sus4"]%string.

(** [a[i]] on an array of strings: [None] stands for [undefined]. *)
Definition index (a : list string) (i : Z) : option string :=
  if i <? 0 then None else nth_error a (Z.to_nat i).

(** A string inside a template literal: [undefined] prints as its name. *)
Definition interpolate (v : option string) : string :=
  match v with Some s => s | None => "undefined"%string end.

(** [function keyToName(keyIndex, isMinor)]. *)
Definition keyToName (keyIndex : Z) (isMinor : bool) : string :=
  let note := index NOTE_NAMES (Z.rem keyIndex 12) in
  if isMinor then (interpolate note ++ "m")%string else interpolate note.

(** [function chordToName(root, quality)]; [x || ''] replaces [undefined]
    and the empty string by the empty string. *)
Definition chordToName (root quality : Z) : string :=
  if (root <? 0) || (11 <? root) then "-"%string
  else
    let note := index NOTE_NAMES root in
    let suffix := match index CHORD_QUALITY_NAMES quality with
                  | Some s => s
                  | None => EmptyString
                  end in
    (interpolate note ++ suffix)%string.

(** [function barChordToInfo(bc)]. *)
Definition barChordToInfo (bc : BarChord) : BarChordInfo :=
  {| bci_barIndex := bc_barIndex bc;
     bci_chord := chordToName (bc_root bc) (bc_quality bc);
     bci_startTime := bc_startTime bc;
     bci_confidence := bc_confidence bc |}.

(** [x || 0] on a number: [NaN] and both zeros are falsy. *)
Definition orZero (x : float) : float :=
  if PrimFloat.is_nan x || PrimFloat.is_zero x then 0%float else x.

(** The object literal assigned to [estimate.value] when the composable is
    created and by [reset]. *)
Definition initialEstimate : StreamEstimate :=
  {| se_bpm := 0%float;
     se_bpmConfidence := 0%float;
     se_key := "-";
     se_keyConfidence := 0%float;
     se_chord := "-";
     se_chordConfidence := 0%float;
     se_barChordProgression := [];
     se_votedPattern := [];
     se_detectedPatternName := EmptyString;
     se_detectedPatternScore := 0%float;
     se_progressionPattern := None;
     se_currentBar := -1;
     se_barDuration := 0%float;
     se_accumulatedSeconds := 0%float |}.

Section WithMathRound.

(** [Math.round], a primitive of the JavaScript engine. *)
Variable Math_round : float -> float.

(** [function updateEstimate(progressiveEstimate)]: the new content of the
    [estimate] ref, given its current content. *)
Definition updateEstimate (progressiveEstimate : ProgressiveEstimate)
    (estimate : StreamEstimate) : StreamEstimate :=
  if negb (updated progressiveEstimate) then estimate
  else
    let barChords := pe_barChordProgression progressiveEstimate in
    let keyRoot := pe_key progressiveEstimate in
    let votedPatternFromCpp :=
      map (fun bc => chordToName (bc_root bc) (bc_quality bc))
          (pe_votedPattern progressiveEstimate) in
    let pattern :=
      detectProgressionPattern
        (map (fun bc => mkChord (bc_root bc) (bc_quality bc)) barChords)
        keyRoot in
    (* [detectedPatternName || ''] is the name itself: the only falsy string
       is the empty one. *)
    {| se_bpm := (Math_round (pe_bpm progressiveEstimate * 10) / 10)%float;
       se_bpmConfidence := pe_bpmConfidence progressiveEstimate;
       se_key :=
         if PrimFloat.ltb 0.3%float (pe_keyConfidence progressiveEstimate)
         then keyToName (pe_key progressiveEstimate) (pe_keyMinor progressiveEstimate)
         else "-"%string;
       se_keyConfidence := pe_keyConfidence progressiveEstimate;
       se_chord :=
         if PrimFloat.ltb 0.3%float (pe_chordConfidence progressiveEstimate)
         then chordToName (pe_chordRoot progressiveEstimate)
                          (pe_chordQuality progressiveEstimate)
         else "-"%string;
       se_chordConfidence := pe_chordConfidence progressiveEstimate;
       se_barChordProgression := map barChordToInfo barChords;
       se_votedPattern := votedPatternFromCpp;
       se_detectedPatternName := pe_detectedPatternName progressiveEstimate;
       se_detectedPatternScore := orZero (pe_detectedPatternScore progressiveEstimate);
       se_progressionPattern := pattern;
       se_currentBar := pe_currentBar progressiveEstimate;
       se_barDuration := pe_barDuration progressiveEstimate;
       se_accumulatedSeconds := pe_accumulatedSeconds progressiveEstimate |}.

End WithMathRound.

(** The part of the composable's closure that the history and estimate
    functions read and write. *)
Record State : Type := mkState {
  histories : Histories;
  estimate : StreamEstimate
}.

Definition initialState : State := mkState clearHistories initialEstimate.

(** [function reset()]: the histories are emptied and [estimate.value] is set
    back.  The call also resets the native analyzer and the flattened
    [streamingData], which are not part of [State]. *)
Definition reset (s : State) : State := mkState clearHistories initialEstimate.

(** The calls that write the seven history arrays. *)
Inductive Call : Type :=
| CallAccumulateFrames (frames : FrameBuffer)
| CallReset
| CallReinit.

Definition runCall (s : State) (c : Call) : State :=
  match c with
  | CallAccumulateFrames frames =>
      mkState (accumulateFrames frames (histories s)) (estimate s)
  | CallReset => reset s
  | CallReinit => mkState clearHistories (estimate s)
  end.

Definition runCalls (calls : list Call) (s : State) : State :=
  fold_left runCall calls s.

(** The seven arrays hold the same number of chunks. *)
Definition Aligned (h : Histories) : Prop :=
  length (rmsHistory h) = length (chromaHistory h)
  /\ length (melHistory h) = length (chromaHistory h)
  /\ length (timestampHistory h) = length (chromaHistory h)
  /\ length (spectralCentroidHistory h) = length (chromaHistory h)
  /\ length (spectralFlatnessHistory h) = length (chromaHistory h)
  /\ length (onsetStrengthHistory h) = length (chromaHistory h).

(** Aligned, and no more than [maxChunks] chunks. *)
Definition Capped (h : Histories) : Prop :=
  Aligned h /\ (length (chromaHistory h) <= maxChunks)%nat.

(** A frame buffer of one frame, for examples. *)
Definition oneFrame (t : float) : FrameBuffer :=
  mkFrameBuffer 1 [t] [] [] [0%float] [0%float] [0%float] [0%float] [0] [0] [0%float].

(** A native estimate with nothing detected, for examples. *)
Definition idleEstimate (flag : bool) : ProgressiveEstimate :=
  mkProgressiveEstimate 120%float 0%float 0 0 false 0%float 0 0 0%float [] []
    (-1) 0%float [] 0 EmptyString 0%float [] 0%float 0 flag.

(** *** Flattening of the histories ([updateStreamingData]) *)

(** What can be thrown: the two errors that typed-array operations raise,
    and whatever a call into the native analyzer throws. *)
Inductive JsError : Type :=
| RangeError
| TypeError
| NativeError (description : string).

(** How a statement ends: normally with a value, or abruptly with an
    error. *)
Inductive Completion (A : Type) : Type :=
| Normal (a : A)
| Abrupt (e : JsError).
Arguments Normal {A} a.
Arguments Abrupt {A} e.

Definition andThen {A B : Type} (c : Completion A) (k : A -> Completion B)
    : Completion B :=
  match c with
  | Normal a => k a
  | Abrupt e => Abrupt e
  end.

(** [interface StreamingData]: the value of the [streamingData] ref. *)
Record StreamingData : Type := mkStreamingData {
  sd_chroma : Float32Array;
  sd_rms : Float32Array;
  sd_mel : Float32Array;
  sd_spectralCentroid : Float32Array;
  sd_spectralFlatness : Float32Array;
  sd_onsetStrength : Float32Array;
  sd_timestamps : Float32Array;
  sd_nFrames : nat;
  sd_nMels : nat;
  sd_nChroma : nat
}.

(** [new Float32Array(n)]: [n] zeros. *)
Definition newFloat32Array (n : nat) : Float32Array := repeat 0%float n.

(** [target.set(source, offset)]: a [TypeError] when [source] is
    [undefined], a [RangeError] when it does not fit, otherwise [target]
    with [source] written from [offset] on. *)
Definition typedSet (target : Float32Array) (source : option Float32Array)
    (offset : nat) : Completion Float32Array :=
  match source with
  | None => Abrupt TypeError
  | Some src =>
      if (offset + length src <=? length target)%nat
      then Normal (firstn offset target ++ src
                   ++ skipn (offset + length src) target)
      else Abrupt RangeError
  end.

(** [target[i] = v]: a write outside the array is dropped. *)
Fixpoint store (target : Float32Array) (i : nat) (v : float) : Float32Array :=
  match target, i with
  | [], _ => []
  | _ :: rest, O => v :: rest
  | x :: rest, S i' => x :: store rest i' v
  end.

(** [chunk[j] || 0]: a read outside the array is [undefined]. *)
Definition loadOrZero (chunk : Float32Array) (j : nat) : float :=
  match nth_error chunk j with
  | Some x => orZero x
  | None => 0%float
  end.

(** The inner loop over [c] (or [m]) for one frame [f] of a chunk. *)
Definition copyRow (width : nat) (chunk : Float32Array) (frameOffset f : nat)
    (flat : Float32Array) : Float32Array :=
  fold_left
    (fun flat c =>
       store flat ((frameOffset + f) * width + c) (loadOrZero chunk (f * width + c)))
    (seq 0 width) flat.

(** The two nested loops that copy a chunk of [chunkFrames] frames of
    [width] values; reading an element of an [undefined] chunk is a
    [TypeError], which needs the loops to run at least once. *)
Definition copyInterleaved (width : nat) (chunk : option Float32Array)
    (frameOffset chunkFrames : nat) (flat : Float32Array)
    : Completion Float32Array :=
  match chunk with
  | Some ch =>
      Normal (fold_left (fun flat f => copyRow width ch frameOffset f flat)
                        (seq 0 chunkFrames) flat)
  | None =>
      if (chunkFrames =? 0)%nat || (width =? 0)%nat
      then Normal flat
      else Abrupt TypeError
  end.

(** The seven local [flat...] arrays and [frameOffset]. *)
Record Flat : Type := mkFlat {
  flatChroma : Float32Array;
  flatRms : Float32Array;
  flatMel : Float32Array;
  flatTimestamps : Float32Array;
  flatSpectralCentroid : Float32Array;
  flatSpectralFlatness : Float32Array;
  flatOnsetStrength : Float32Array;
  frameOffset : nat
}.

Definition nChroma : nat := 12.

(** Body of [for (let i = 0; i < rmsHistory.length; i++)]. *)
Definition flattenChunk (nMels : nat) (h : Histories) (acc : Flat) (i : nat)
    : Completion Flat :=
  match nth_error (rmsHistory h) i with
  | None => Abrupt TypeError
  | Some rmsChunk =>
      let chunkFrames := length rmsChunk in
      andThen (typedSet (flatRms acc) (Some rmsChunk) (frameOffset acc)) (fun rms =>
      andThen (typedSet (flatTimestamps acc)
                 (nth_error (timestampHistory h) i) (frameOffset acc)) (fun ts =>
      andThen (typedSet (flatSpectralCentroid acc)
                 (nth_error (spectralCentroidHistory h) i) (frameOffset acc)) (fun sc =>
      andThen (typedSet (flatSpectralFlatness acc)
                 (nth_error (spectralFlatnessHistory h) i) (frameOffset acc)) (fun sf =>
      andThen (typedSet (flatOnsetStrength acc)
                 (nth_error (onsetStrengthHistory h) i) (frameOffset acc)) (fun os =>
      andThen (copyInterleaved nChroma (nth_error (chromaHistory h) i)
                 (frameOffset acc) chunkFrames (flatChroma acc)) (fun ch =>
      andThen (copyInterleaved nMels (nth_error (melHistory h) i)
                 (frameOffset acc) chunkFrames (flatMel acc)) (fun ml =>
      Normal {| flatChroma := ch;
                flatRms := rms;
                flatMel := ml;
                flatTimestamps := ts;
                flatSpectralCentroid := sc;
                flatSpectralFlatness := sf;
                flatOnsetStrength := os;
                frameOffset := frameOffset acc + chunkFrames |})))))))
  end.

(** A [for] loop whose body may end abruptly. *)
Fixpoint forEach {S : Type} (body : S -> nat -> Completion S) (indices : list nat)
    (s : S) : Completion S :=
  match indices with
  | [] => Normal s
  | i :: rest =>
      match body s i with
      | Normal s' => forEach body rest s'
      | Abrupt e => Abrupt e
      end
  end.

(** [let totalFrames = 0; for (const chunk of rmsHistory) totalFrames += chunk.length]. *)
Definition countFrames (h : Histories) : nat :=
  fold_left (fun totalFrames chunk => (totalFrames + length chunk)%nat)
            (rmsHistory h) 0%nat.

(** [function updateStreamingData()]: the new value of [streamingData],
    given its current value, for the mel band count [nMels] of the
    configuration ([defaultConfig.nMels ?? 128]). *)
Definition updateStreamingData (nMels : nat) (h : Histories)
    (streamingData : StreamingData) : Completion StreamingData :=
  let totalFrames := countFrames h in
  if (totalFrames =? 0)%nat then Normal streamingData
  else
    let start :=
      {| flatChroma := newFloat32Array (totalFrames * nChroma);
         flatRms := newFloat32Array totalFrames;
         flatMel := newFloat32Array (totalFrames * nMels);
         flatTimestamps := newFloat32Array totalFrames;
         flatSpectralCentroid := newFloat32Array totalFrames;
         flatSpectralFlatness := newFloat32Array totalFrames;
         flatOnsetStrength := newFloat32Array totalFrames;
         frameOffset := 0 |} in
    andThen (forEach (flattenChunk nMels h) (seq 0 (length (rmsHistory h))) start)
      (fun acc =>
         Normal {| sd_chroma := flatChroma acc;
                   sd_rms := flatRms acc;
                   sd_mel := flatMel acc;
                   sd_spectralCentroid := flatSpectralCentroid acc;
                   sd_spectralFlatness := flatSpectralFlatness acc;
                   sd_onsetStrength := flatOnsetStrength acc;
                   sd_timestamps := flatTimestamps acc;
                   sd_nFrames := totalFrames;
                   sd_nMels := nMels;
                   sd_nChroma := nChroma |}).

(** The [streamingData] of a fresh composable and after [reset]. *)
Definition emptyStreamingData (nMels : nat) : StreamingData :=
  mkStreamingData [] [] [] [] [] [] [] 0 nMels 12.

(** A buffer whose arrays have the sizes that go with the length of its
    [rmsEnergy]: one value per frame, 12 chroma and [nMels] mel values per
    frame. *)
Definition WellSized (nMels : nat) (frames : FrameBuffer) : Prop :=
  length (timestamps frames) = length (rmsEnergy frames)
  /\ length (spectralCentroid frames) = length (rmsEnergy frames)
  /\ length (spectralFlatness frames) = length (rmsEnergy frames)
  /\ length (onsetStrength frames) = length (rmsEnergy frames)
  /\ length (chroma frames) = (length (rmsEnergy frames) * 12)%nat
  /\ length (mel frames) = (length (rmsEnergy frames) * nMels)%nat.

(** The arrays of the buffers laid end to end; chroma and mel values that
    are [NaN] or a zero become [0]. *)
Definition flattened (nMels : nat) (buffers : list FrameBuffer) : StreamingData :=
  {| sd_chroma := map orZero (flat_map chroma buffers);
     sd_rms := flat_map rmsEnergy buffers;
     sd_mel := map orZero (flat_map mel buffers);
     sd_spectralCentroid := flat_map spectralCentroid buffers;
     sd_spectralFlatness := flat_map spectralFlatness buffers;
     sd_onsetStrength := flat_map onsetStrength buffers;
     sd_timestamps := flat_map timestamps buffers;
     sd_nFrames := length (flat_map rmsEnergy buffers);
     sd_nMels := nMels;
     sd_nChroma := 12 |}.

(** A buffer of one frame at time [t] whose chroma values are all [t], for
    examples; its sizes match for a mel band count of 0. *)
Definition sizedFrame (t : float) : FrameBuffer :=
  mkFrameBuffer 1 [t] [] (repeat t 12) [0%float] [t] [0%float] [0%float]
    [0] [0] [0%float].

(** Number of frames in the buffers, counted on [rmsEnergy]. *)
Definition framesOf (buffers : list FrameBuffer) : nat :=
  length (flat_map rmsEnergy buffers).

(** The local arrays once the chunks of [done] have been copied and those of
    [rest] are still to come. *)
Definition partialFlat (nMels : nat) (done rest : list FrameBuffer) : Flat :=
  {| flatChroma := map orZero (flat_map chroma done)
                   ++ repeat 0%float (framesOf rest * 12);
     flatRms := flat_map rmsEnergy done ++ repeat 0%float (framesOf rest);
     flatMel := map orZero (flat_map mel done)
                ++ repeat 0%float (framesOf rest * nMels);
     flatTimestamps := flat_map timestamps done ++ repeat 0%float (framesOf rest);
     flatSpectralCentroid :=
       flat_map spectralCentroid done ++ repeat 0%float (framesOf rest);
     flatSpectralFlatness :=
       flat_map spectralFlatness done ++ repeat 0%float (framesOf rest);
     flatOnsetStrength :=
       flat_map onsetStrength done ++ repeat 0%float (framesOf rest);
     frameOffset := framesOf done |}.

(** *** One processing cycle ([process]) *)

Section WithAnalyzer.

(** [Math.round], and the state of the native analyzer behind the
    [StreamAnalyzer] instance held in [analyzer]. *)
Variable Math_round : float -> float.
Context {Analyzer : Type}.

(** The four methods of [StreamAnalyzer] that [process] calls.  Each may
    throw, and each may change the native analyzer. *)
Record AnalyzerApi : Type := mkAnalyzerApi {
  api_process : Float32Array -> Analyzer -> Completion unit * Analyzer;
  api_availableFrames : Analyzer -> Completion Z * Analyzer;
  api_readFrames : Z -> Analyzer -> Completion FrameBuffer * Analyzer;
  api_stats : Analyzer -> Completion ProgressiveEstimate * Analyzer
}.

Variable api : AnalyzerApi.

(** What [process] reads and writes of the closure of [useStreamAnalyzer]:
    the refs [isInitialized], [isProcessing], [estimate] and
    [streamingData], the variable [analyzer], the histories and
    [defaultConfig.nMels ?? 128]. *)
Record Closure : Type := mkClosure {
  c_isInitialized : bool;
  c_isProcessing : bool;
  c_analyzer : option Analyzer;
  c_histories : Histories;
  c_streamingData : StreamingData;
  c_estimate : StreamEstimate;
  c_nMels : nat
}.

Definition withProcessing (b : bool) (c : Closure) : Closure :=
  mkClosure (c_isInitialized c) b (c_analyzer c) (c_histories c)
            (c_streamingData c) (c_estimate c) (c_nMels c).

Definition withAnalyzer (a : Analyzer) (c : Closure) : Closure :=
  mkClosure (c_isInitialized c) (c_isProcessing c) (Some a) (c_histories c)
            (c_streamingData c) (c_estimate c) (c_nMels c).

Definition withHistories (h : Histories) (c : Closure) : Closure :=
  mkClosure (c_isInitialized c) (c_isProcessing c) (c_analyzer c) h
            (c_streamingData c) (c_estimate c) (c_nMels c).

Definition withStreamingData (d : StreamingData) (c : Closure) : Closure :=
  mkClosure (c_isInitialized c) (c_isProcessing c) (c_analyzer c) (c_histories c)
            d (c_estimate c) (c_nMels c).

Definition withEstimate (e : StreamEstimate) (c : Closure) : Closure :=
  mkClosure (c_isInitialized c) (c_isProcessing c) (c_analyzer c) (c_histories c)
            (c_streamingData c) e (c_nMels c).

(** [if (availableFrames > 0) { readFrames; accumulateFrames;
    updateStreamingData }] on the native analyzer [a]: how it ends, the
    native analyzer and the closure after it. *)
Definition readAvailable (availableFrames : Z) (a : Analyzer) (c : Closure)
    : Completion unit * Analyzer * Closure :=
  if 0 <? availableFrames then
    match api_readFrames api availableFrames a with
    | (Abrupt e, a') => (Abrupt e, a', c)
    | (Normal frames, a') =>
        let c1 := withHistories (accumulateFrames frames (c_histories c)) c in
        match updateStreamingData (c_nMels c1) (c_histories c1)
                (c_streamingData c1) with
        | Abrupt e => (Abrupt e, a', c1)
        | Normal d => (Normal tt, a', withStreamingData d c1)
        end
    end
  else (Normal tt, a, c).

(** [function process(samples)]: how the call ends, and the closure after
    it, [c_analyzer] holding the native analyzer as the calls left it. *)
Definition process (samples : Float32Array) (c : Closure)
    : Completion unit * Closure :=
  match c_analyzer c with
  | None => (Normal tt, c)
  | Some a =>
      if negb (c_isInitialized c) then (Normal tt, c)
      else
        let c1 := withProcessing true c in
        match api_process api samples a with
        | (Abrupt e, a1) => (Abrupt e, withAnalyzer a1 c1)
        | (Normal _, a1) =>
            match api_availableFrames api a1 with
            | (Abrupt e, a2) => (Abrupt e, withAnalyzer a2 c1)
            | (Normal availableFrames, a2) =>
                match readAvailable availableFrames a2 c1 with
                | (Abrupt e, a3, c2) => (Abrupt e, withAnalyzer a3 c2)
                | (Normal _, a3, c2) =>
                    match api_stats api a3 with
                    | (Abrupt e, a4) => (Abrupt e, withAnalyzer a4 c2)
                    | (Normal stats_estimate, a4) =>
                        (Normal tt,
                         withProcessing false
                           (withEstimate
                              (updateEstimate Math_round stats_estimate
                                              (c_estimate c2))
                              (withAnalyzer a4 c2)))
                    end
                end
            end
        end
  end.

End WithAnalyzer.

(** A native analyzer that counts the chunks it was given, announces one
    frame after each and reports an updated estimate, and a closure that
    holds it, for examples. *)
Definition exampleApi : @AnalyzerApi nat :=
  {| api_process := fun _ a => (Normal tt, S a);
     api_availableFrames := fun a => (Normal 1, a);
     api_readFrames := fun _ a => (Normal (sizedFrame 1), a);
     api_stats := fun a => (Normal (idleEstimate true), a) |}.

Definition exampleClosure : @Closure nat :=
  mkClosure true false (Some 0%nat) clearHistories (emptyStreamingData 0)
            initialEstimate 0.

(** *** Vocabulary of further statements about the composable *)

(** The root and quality pairs that name a chord: twelve pitch classes, nine
    qualities. *)
Definition validChords : list (Z * Z) :=
  list_prod (map Z.of_nat (seq 0 12)) (map Z.of_nat (seq 0 9)).

Fixpoint distinctStrings (l : list string) : bool :=
  match l with
  | [] => true
  | x :: rest => negb (existsb (String.eqb x) rest) && distinctStrings rest
  end.

(** Every array without its [k] oldest chunks. *)
Definition dropOldest (k : nat) (h : Histories) : Histories :=
  {| chromaHistory := skipn k (chromaHistory h);
     rmsHistory := skipn k (rmsHistory h);
     melHistory := skipn k (melHistory h);
     timestampHistory := skipn k (timestampHistory h);
     spectralCentroidHistory := skipn k (spectralCentroidHistory h);
     spectralFlatnessHistory := skipn k (spectralFlatnessHistory h);
     onsetStrengthHistory := skipn k (onsetStrengthHistory h) |}.

(** The histories that hold one chunk per buffer of [buffers], in order. *)
Definition collect (buffers : list FrameBuffer) : Histories :=
  {| chromaHistory := map chroma buffers;
     rmsHistory := map rmsEnergy buffers;
     melHistory := map mel buffers;
     timestampHistory := map timestamps buffers;
     spectralCentroidHistory := map spectralCentroid buffers;
     spectralFlatnessHistory := map spectralFlatness buffers;
     onsetStrengthHistory := map onsetStrength buffers |}.

(** [frames.nFrames !== 0]. *)
Definition hasFrames (frames : FrameBuffer) : bool := negb (nFrames frames =? 0).

End Composable.

(* ====================================================================== *)
(** ** Binding layer (wasm/index.js) *)
(* ====================================================================== *)

Module Wasm.

(** How a call ends: with a value, or with a thrown [Error] of the given
    message. *)
Inductive Outcome (A : Type) : Type :=
| Return (a : A)
| Throw (message : string).
Arguments Return {A} a.
Arguments Throw {A} message.

Definition bindOutcome {A B : Type} (o : Outcome A) (k : A -> Outcome B) : Outcome B :=
  match o with
  | Return a => k a
  | Throw e => Throw e
  end.

Definition NOT_INITIALIZED : string := "Module not initialized. Call init() first.".

(** Message of the engine's [TypeError] for a property read on [undefined],
    or a [map] call on a non-array. *)
Definition TYPE_ERROR : string := "TypeError".

Section Binding.

(** Opaque things that cross the binding: typed arrays, callbacks and embind
    vectors ([Handle]), the native analyzer object ([NativeAnalyzer]) and the
    optional Emscripten module configuration ([EmOptions]). *)
Context {Handle NativeAnalyzer EmOptions : Type}.

(** JavaScript values passed to and returned from the module. *)
Inductive Value : Type :=
| Undefined
| Num (x : float)
| Str (s : string)
| Boolean (b : bool)
| Ref (h : Handle)
| Obj (fields : list (string * Value))
| Arr (items : list Value).

(** The arguments of [new module.StreamAnalyzer(...)], in call order. *)
Record NativeArgs : Type := mkNativeArgs {
  na_sampleRate : Z;
  na_nFft : Z;
  na_hopLength : Z;
  na_nMels : Z;
  na_computeMel : bool;
  na_computeChroma : bool;
  na_computeOnset : bool;
  na_emitEveryNFrames : Z
}.

(** The object that [createModule(options)] resolves to: its functions by
    name, and its [StreamAnalyzer] class. *)
Record WasmModule : Type := mkWasmModule {
  wasm_call : string -> list Value -> Outcome Value;
  wasm_StreamAnalyzer : NativeArgs -> Outcome NativeAnalyzer
}.

(** State of the task behind a promise made by the [async] arrow function of
    [init]: waiting for [import('./sonare.js')], waiting for
    [createModule(options)], finished, or failed. *)
Inductive Phase : Type :=
| Importing (options : option EmOptions)
| Creating
| Fulfilled
| Rejected.

(** [let module = null; let initPromise = null;] and the promises made so
    far; a promise is named by its position in [promises]. *)
Record ModuleState : Type := mkModuleState {
  module : option WasmModule;
  initPromise : option nat;
  promises : list Phase
}.

Definition initialModuleState : ModuleState := mkModuleState None None [].

(** What the promise returned by an [async function] is resolved with:
    [undefined], or another promise whose fate it then follows. *)
Inductive AsyncReturn : Type :=
| ResolvedUndefined
| Follows (p : nat).

(** [export async function init(options)], up to its return.  Calling the
    arrow function starts [import('./sonare.js')] and yields a new pending
    promise. *)
Definition init (options : option EmOptions) (s : ModuleState)
    : AsyncReturn * ModuleState :=
  match module s with
  | Some _ => (ResolvedUndefined, s)
  | None =>
      match initPromise s with
      | Some p => (Follows p, s)
      | None =>
          let p := length (promises s) in
          (Follows p,
           {| module := None;
              initPromise := Some p;
              promises := promises s ++ [Importing options] |})
      end
  end.

(** Settling of the two [await]s inside the arrow function. *)
Inductive Event : Type :=
| ImportResolved (p : nat)
| CreateResolved (p : nat) (m : WasmModule)
| LoadRejected (p : nat).

Fixpoint setPhase (p : nat) (ph : Phase) (l : list Phase) : list Phase :=
  match l, p with
  | [], _ => []
  | _ :: rest, O => ph :: rest
  | x :: rest, S p' => x :: setPhase p' ph rest
  end.

(** The continuation run by an event; [None] when the task of [p] is not
    waiting for it. *)
Definition resume (e : Event) (s : ModuleState) : option ModuleState :=
  match e with
  | ImportResolved p =>
      match nth_error (promises s) p with
      | Some (Importing _) =>
          Some {| module := module s;
                  initPromise := initPromise s;
                  promises := setPhase p Creating (promises s) |}
      | _ => None
      end
  | CreateResolved p m =>
      match nth_error (promises s) p with
      | Some Creating =>
          Some {| module := Some m;
                  initPromise := initPromise s;
                  promises := setPhase p Fulfilled (promises s) |}
      | _ => None
      end
  | LoadRejected p =>
      match nth_error (promises s) p with
      | Some (Importing _) | Some Creating =>
          Some {| module := module s;
                  initPromise := initPromise s;
                  promises := setPhase p Rejected (promises s) |}
      | _ => None
      end
  end.

(** One turn of the event loop that touches the module state: a call of
    [init], or a continuation of the loading task. *)
Inductive Step : ModuleState -> ModuleState -> Prop :=
| StepInit (options : option EmOptions) (s : ModuleState) :
    Step s (snd (init options s))
| StepResume (e : Event) (s s' : ModuleState) :
    resume e s = Some s' -> Step s s'.

Inductive Reachable : ModuleState -> Prop :=
| ReachInitial : Reachable initialModuleState
| ReachStep (s s' : ModuleState) : Reachable s -> Step s s' -> Reachable s'.

(** What holds of the module state at every turn: either [init] has not been
    called, or it has made exactly one promise, which [initPromise] names,
    and the module is assigned exactly when that promise is fulfilled. *)
Definition LoadInvariant (s : ModuleState) : Prop :=
  (promises s = [] /\ initPromise s = None /\ module s = None)
  \/ (exists ph,
        promises s = [ph] /\ initPromise s = Some 0%nat
        /\ (module s <> None <-> ph = Fulfilled)).

(** Synchronous exports: a result and the module state after the call. *)
Definition M (A : Type) : Type := ModuleState -> Outcome A * ModuleState.

Definition ret {A : Type} (a : A) : M A := fun s => (Return a, s).

Definition bind {A B : Type} (m : M A) (k : A -> M B) : M B :=
  fun s =>
    match m s with
    | (Return a, s') => k a s'
    | (Throw e, s') => (Throw e, s')
    end.

(** [if (!module) throw new Error(...)], then the module. *)
Definition requireModule : M WasmModule :=
  fun s =>
    match module s with
    | Some m => (Return m, s)
    | None => (Throw NOT_INITIALIZED, s)
    end.

(** The result of a computation that does not touch the module state. *)
Definition lift {A : Type} (o : Outcome A) : M A := fun s => (o, s).

(** [export function isInitialized()]: [module !== null]. *)
Definition isInitialized : M bool :=
  fun s => (Return (match module s with Some _ => true | None => false end), s).

(** The [i]-th actual parameter; a missing one is [undefined]. *)
Definition arg (i : nat) (args : list Value) : Value := nth i args Undefined.

(** A parameter declared with a default value. *)
Definition dflt (d : float) (v : Value) : Value :=
  match v with
  | Undefined => Num d
  | _ => v
  end.

(** [o.k]. *)
Fixpoint lookupField (k : string) (fields : list (string * Value)) : Value :=
  match fields with
  | [] => Undefined
  | (k', v) :: rest => if String.eqb k k' then v else lookupField k rest
  end.

Definition get (k : string) (v : Value) : Outcome Value :=
  match v with
  | Undefined => Throw TYPE_ERROR
  | Obj fields => Return (lookupField k fields)
  | _ => Return Undefined
  end.

(** [a.map(f)] for a callback that may throw. *)
Fixpoint mapOutcome (f : Value -> Outcome Value) (l : list Value)
    : Outcome (list Value) :=
  match l with
  | [] => Return []
  | x :: rest =>
      bindOutcome (f x) (fun y =>
      bindOutcome (mapOutcome f rest) (fun ys => Return (y :: ys)))
  end.

Definition mapArr (f : Value -> Outcome Value) (v : Value) : Outcome Value :=
  match v with
  | Arr items => bindOutcome (mapOutcome f items) (fun ys => Return (Arr ys))
  | _ => Throw TYPE_ERROR
  end.

(** An object literal whose fields are read off [v] under the same names. *)
Fixpoint copyFields (names : list string) (v : Value)
    : Outcome (list (string * Value)) :=
  match names with
  | [] => Return []
  | k :: rest =>
      bindOutcome (get k v) (fun x =>
      bindOutcome (copyFields rest v) (fun xs => Return ((k, x) :: xs)))
  end.

Definition copyObject (names : list string) (v : Value) : Outcome Value :=
  bindOutcome (copyFields names v) (fun fs => Return (Obj fs)).

Definition KEY_FIELDS : list string :=
  ["root"; "mode"; "confidence"; "name"; "shortName"]%string.

(** [function convertAnalysisResult(wasm)]. *)
Definition convertAnalysisResult (wasm : Value) : Outcome Value :=
  bindOutcome (get "bpm" wasm) (fun bpm =>
  bindOutcome (get "bpmConfidence" wasm) (fun bpmConfidence =>
  bindOutcome (get "key" wasm) (fun k =>
  bindOutcome (copyObject KEY_FIELDS k) (fun key =>
  bindOutcome (get "timeSignature" wasm) (fun timeSignature =>
  bindOutcome (get "beats" wasm) (fun beats =>
  bindOutcome (get "chords" wasm) (fun cs =>
  bindOutcome (mapArr (copyObject
    ["root"; "quality"; "start"; "end"; "confidence"; "name"]%string) cs) (fun chords =>
  bindOutcome (get "sections" wasm) (fun ss =>
  bindOutcome (mapArr (copyObject
    ["type"; "start"; "end"; "energyLevel"; "confidence"; "name"]%string) ss) (fun sections =>
  bindOutcome (get "timbre" wasm) (fun timbre =>
  bindOutcome (get "dynamics" wasm) (fun dynamics =>
  bindOutcome (get "rhythm" wasm) (fun rhythm =>
  bindOutcome (get "form" wasm) (fun form =>
  Return (Obj [("bpm", bpm); ("bpmConfidence", bpmConfidence); ("key", key);
               ("timeSignature", timeSignature); ("beats", beats);
               ("chords", chords); ("sections", sections); ("timbre", timbre);
               ("dynamics", dynamics); ("rhythm", rhythm); ("form", form)]%string)
  )))))))))))))).

(** The shape shared by the exports: the guard, then [module.name(...)] on
    the parameters with their defaults filled in. *)
Definition delegate (name : string) (params : list Value) : M Value :=
  bind requireModule (fun m => lift (wasm_call m name params)).

(** *** The exports, in source order *)

Definition version (args : list Value) : M Value :=
  delegate "version" [].

Definition detectBpm (args : list Value) : M Value :=
  delegate "detectBpm" [arg 0 args; arg 1 args].

Definition detectKey (args : list Value) : M Value :=
  bind (delegate "detectKey" [arg 0 args; arg 1 args]) (fun result =>
  lift (copyObject KEY_FIELDS result)).

Definition detectOnsets (args : list Value) : M Value :=
  delegate "detectOnsets" [arg 0 args; arg 1 args].

Definition detectBeats (args : list Value) : M Value :=
  delegate "detectBeats" [arg 0 args; arg 1 args].

Definition analyze (args : list Value) : M Value :=
  bind (delegate "analyze" [arg 0 args; arg 1 args]) (fun result =>
  lift (convertAnalysisResult result)).

Definition analyzeWithProgress (args : list Value) : M Value :=
  bind (delegate "analyzeWithProgress" [arg 0 args; arg 1 args; arg 2 args])
       (fun result => lift (convertAnalysisResult result)).

Definition hpss (args : list Value) : M Value :=
  delegate "hpss"
    [arg 0 args; arg 1 args; dflt 31 (arg 2 args); dflt 31 (arg 3 args)].

Definition harmonic (args : list Value) : M Value :=
  delegate "harmonic" [arg 0 args; arg 1 args].

Definition percussive (args : list Value) : M Value :=
  delegate "percussive" [arg 0 args; arg 1 args].

Definition timeStretch (args : list Value) : M Value :=
  delegate "timeStretch" [arg 0 args; arg 1 args; arg 2 args].

Definition pitchShift (args : list Value) : M Value :=
  delegate "pitchShift" [arg 0 args; arg 1 args; arg 2 args].

Definition normalize (args : list Value) : M Value :=
  delegate "normalize" [arg 0 args; arg 1 args; dflt 0 (arg 2 args)].

Definition trim (args : list Value) : M Value :=
  delegate "trim" [arg 0 args; arg 1 args; dflt (-60) (arg 2 args)].

Definition stft (args : list Value) : M Value :=
  delegate "stft"
    [arg 0 args; arg 1 args; dflt 2048 (arg 2 args); dflt 512 (arg 3 args)].

Definition stftDb (args : list Value) : M Value :=
  delegate "stftDb"
    [arg 0 args; arg 1 args; dflt 2048 (arg 2 args); dflt 512 (arg 3 args)].

Definition melSpectrogram (args : list Value) : M Value :=
  delegate "melSpectrogram"
    [arg 0 args; arg 1 args; dflt 2048 (arg 2 args); dflt 512 (arg 3 args);
     dflt 128 (arg 4 args)].

Definition mfcc (args : list Value) : M Value :=
  delegate "mfcc"
    [arg 0 args; arg 1 args; dflt 2048 (arg 2 args); dflt 512 (arg 3 args);
     dflt 128 (arg 4 args); dflt 13 (arg 5 args)].

Definition chroma (args : list Value) : M Value :=
  delegate "chroma"
    [arg 0 args; arg 1 args; dflt 2048 (arg 2 args); dflt 512 (arg 3 args)].

Definition spectralCentroid (args : list Value) : M Value :=
  delegate "spectralCentroid"
    [arg 0 args; arg 1 args; dflt 2048 (arg 2 args); dflt 512 (arg 3 args)].

Definition spectralBandwidth (args : list Value) : M Value :=
  delegate "spectralBandwidth"
    [arg 0 args; arg 1 args; dflt 2048 (arg 2 args); dflt 512 (arg 3 args)].

Definition spectralRolloff (args : list Value) : M Value :=
  delegate "spectralRolloff"
    [arg 0 args; arg 1 args; dflt 2048 (arg 2 args); dflt 512 (arg 3 args);
     dflt 0.85 (arg 4 args)].

Definition spectralFlatness (args : list Value) : M Value :=
  delegate "spectralFlatness"
    [arg 0 args; arg 1 args; dflt 2048 (arg 2 args); dflt 512 (arg 3 args)].

Definition zeroCrossingRate (args : list Value) : M Value :=
  delegate "zeroCrossingRate"
    [arg 0 args; arg 1 args; dflt 2048 (arg 2 args); dflt 512 (arg 3 args)].

Definition rmsEnergy (args : list Value) : M Value :=
  delegate "rmsEnergy"
    [arg 0 args; arg 1 args; dflt 2048 (arg 2 args); dflt 512 (arg 3 args)].

Definition pitchYin (args : list Value) : M Value :=
  delegate "pitchYin"
    [arg 0 args; arg 1 args; dflt 2048 (arg 2 args); dflt 512 (arg 3 args);
     dflt 65 (arg 4 args); dflt 2093 (arg 5 args); dflt 0.3 (arg 6 args)].

Definition pitchPyin (args : list Value) : M Value :=
  delegate "pitchPyin"
    [arg 0 args; arg 1 args; dflt 2048 (arg 2 args); dflt 512 (arg 3 args);
     dflt 65 (arg 4 args); dflt 2093 (arg 5 args); dflt 0.3 (arg 6 args)].

Definition hzToMel (args : list Value) : M Value :=
  delegate "hzToMel" [arg 0 args].

Definition melToHz (args : list Value) : M Value :=
  delegate "melToHz" [arg 0 args].

Definition hzToMidi (args : list Value) : M Value :=
  delegate "hzToMidi" [arg 0 args].

Definition midiToHz (args : list Value) : M Value :=
  delegate "midiToHz" [arg 0 args].

Definition hzToNote (args : list Value) : M Value :=
  delegate "hzToNote" [arg 0 args].

Definition noteToHz (args : list Value) : M Value :=
  delegate "noteToHz" [arg 0 args].

Definition framesToTime (args : list Value) : M Value :=
  delegate "framesToTime" [arg 0 args; arg 1 args; arg 2 args].

Definition timeToFrames (args : list Value) : M Value :=
  delegate "timeToFrames" [arg 0 args; arg 1 args; arg 2 args].

Definition resample (args : list Value) : M Value :=
  delegate "resample" [arg 0 args; arg 1 args; arg 2 args].

(** Every exported function of the file other than [init] and
    [isInitialized], under its exported name. *)
Definition analysisExports : list (string * (list Value -> M Value)) :=
  [ ("version", version); ("detectBpm", detectBpm); ("detectKey", detectKey);
    ("detectOnsets", detectOnsets); ("detectBeats", detectBeats);
    ("analyze", analyze); ("analyzeWithProgress", analyzeWithProgress);
    ("hpss", hpss); ("harmonic", harmonic); ("percussive", percussive);
    ("timeStretch", timeStretch); ("pitchShift", pitchShift);
    ("normalize", normalize); ("trim", trim); ("stft", stft);
    ("stftDb", stftDb); ("melSpectrogram", melSpectrogram); ("mfcc", mfcc);
    ("chroma", chroma); ("spectralCentroid", spectralCentroid);
    ("spectralBandwidth", spectralBandwidth);
    ("spectralRolloff", spectralRolloff);
    ("spectralFlatness", spectralFlatness);
    ("zeroCrossingRate", zeroCrossingRate); ("rmsEnergy", rmsEnergy);
    ("pitchYin", pitchYin); ("pitchPyin", pitchPyin); ("hzToMel", hzToMel);
    ("melToHz", melToHz); ("hzToMidi", hzToMidi); ("midiToHz", midiToHz);
    ("hzToNote", hzToNote); ("noteToHz", noteToHz);
    ("framesToTime", framesToTime); ("timeToFrames", timeToFrames);
    ("resample", resample) ]%string.

(** *** The [StreamAnalyzer] class *)

(** [interface StreamConfig]; an optional field left out, [undefined] or
    [null] is [None]. *)
Record StreamConfig : Type := mkStreamConfig {
  sampleRate : Z;
  nFft : option Z;
  hopLength : option Z;
  nMels : option Z;
  computeMel : option bool;
  computeChroma : option bool;
  computeOnset : option bool;
  emitEveryNFrames : option Z
}.

(** [a ?? b]. *)
Definition nullish {A : Type} (a : option A) (b : A) : A :=
  match a with
  | Some v => v
  | None => b
  end.

(** The argument list written in the constructor. *)
Definition constructorArgs (config : StreamConfig) : NativeArgs :=
  {| na_sampleRate := sampleRate config;
     na_nFft := nullish (nFft config) 2048;
     na_hopLength := nullish (hopLength config) 512;
     na_nMels := nullish (nMels config) 128;
     na_computeMel := nullish (computeMel config) true;
     na_computeChroma := nullish (computeChroma config) true;
     na_computeOnset := nullish (computeOnset config) true;
     na_emitEveryNFrames := nullish (emitEveryNFrames config) 1 |}.

(** An instance: its only field is [this.analyzer]. *)
Record StreamAnalyzer : Type := mkStreamAnalyzer { analyzer : NativeAnalyzer }.

(** [constructor(config)]. *)
Definition newStreamAnalyzer (config : StreamConfig) : M StreamAnalyzer :=
  bind requireModule (fun m =>
  lift (bindOutcome (wasm_StreamAnalyzer m (constructorArgs config))
                    (fun a => Return (mkStreamAnalyzer a)))).

(** Modelled from the spec: the native constructor [module.StreamAnalyzer],
    which is compiled into sonare.wasm and has no source in this repository.
    "Construction fails (rejects) if sampleRate <= 0 or hopLength >= nFft
    (window would never advance) or hopLength <= 0."  [allocate] stands for
    what it builds otherwise. *)
Definition specNativeStreamAnalyzer (allocate : NativeArgs -> NativeAnalyzer)
    (a : NativeArgs) : Outcome NativeAnalyzer :=
  if (na_sampleRate a <=? 0) || (na_nFft a <=? na_hopLength a) || (na_hopLength a <=? 0)
  then Throw "invalid stream configuration"
  else Return (allocate a).

(** The configuration that spells out the arguments [a]. *)
Definition explicitConfig (a : NativeArgs) : StreamConfig :=
  {| sampleRate := na_sampleRate a;
     nFft := Some (na_nFft a);
     hopLength := Some (na_hopLength a);
     nMels := Some (na_nMels a);
     computeMel := Some (na_computeMel a);
     computeChroma := Some (na_computeChroma a);
     computeOnset := Some (na_computeOnset a);
     emitEveryNFrames := Some (na_emitEveryNFrames a) |}.

End Binding.

(** A module whose functions return [undefined] and whose analyzer class
    checks its arguments, for examples. *)
Definition exampleModule : @WasmModule unit NativeArgs :=
  {| wasm_call := fun _ _ => Return Undefined;
     wasm_StreamAnalyzer := specNativeStreamAnalyzer (fun a => a) |}.

Definition exampleLoaded : @ModuleState unit NativeArgs unit :=
  {| module := Some exampleModule; initPromise := Some 0%nat; promises := [Fulfilled] |}.

Definition examplePending : @ModuleState unit NativeArgs unit :=
  snd (init None initialModuleState).

Section Conversions.

Context {Handle : Type}.

Local Abbreviation JsValue := (@Value Handle).

(** [v === undefined]. *)
Definition isUndefined (v : JsValue) : bool :=
  match v with
  | Undefined => true
  | _ => false
  end.

(** What [v.k] evaluates to when it does not throw. *)
Definition field (k : string) (v : JsValue) : JsValue :=
  match v with
  | Obj fields => lookupField k fields
  | _ => Undefined
  end.

(** An array none of whose elements is [undefined]. *)
Definition definedArray (v : JsValue) : bool :=
  match v with
  | Arr items => forallb (fun x => negb (isUndefined x)) items
  | _ => false
  end.

Definition isArray (v : JsValue) : bool :=
  match v with
  | Arr _ => true
  | _ => false
  end.

(** The native results that [convertAnalysisResult] can convert: not
    [undefined], with a [key] that is not [undefined] and with [chords] and
    [sections] arrays without [undefined] elements. *)
Definition convertible (wasm : JsValue) : bool :=
  negb (isUndefined wasm)
  && negb (isUndefined (field "key" wasm))
  && definedArray (field "chords" wasm)
  && definedArray (field "sections" wasm).

(** The field names of the object that [convertAnalysisResult] returns. *)
Definition RESULT_FIELDS : list string :=
  ["bpm"; "bpmConfidence"; "key"; "timeSignature"; "beats"; "chords";
   "sections"; "timbre"; "dynamics"; "rhythm"; "form"]%string.

(** Truthiness of a value, as [||] tests it. *)
Definition truthy (v : JsValue) : bool :=
  match v with
  | Undefined => false
  | Num x => negb (PrimFloat.is_nan x || PrimFloat.is_zero x)
  | Str s => negb (String.eqb s EmptyString)
  | Boolean b => b
  | Ref _ | Obj _ | Arr _ => true
  end.

(** [a || b]. *)
Definition orElse (a b : JsValue) : JsValue := if truthy a then a else b.

Definition BAR_CHORD_FIELDS : list string :=
  ["barIndex"; "root"; "quality"; "startTime"; "confidence"]%string.

(** The object that the [stats()] method of [StreamAnalyzer] builds from
    [s], the result of the native [stats()].  Every property read that can
    throw throws the same error, and reads have no effect, so the plain
    copies are grouped; the fields of the result are in source order. *)
Definition statsResult (s : JsValue) : Outcome JsValue :=
  bindOutcome (copyFields ["totalFrames"; "totalSamples"; "durationSeconds"]%string s)
    (fun totals =>
  bindOutcome (get "estimate" s) (fun e =>
  bindOutcome (copyFields
                 ["bpm"; "bpmConfidence"; "bpmCandidateCount"; "key"; "keyMinor";
                  "keyConfidence"; "chordRoot"; "chordQuality";
                  "chordConfidence"]%string e) (fun head =>
  bindOutcome (get "chordProgression" e) (fun cp =>
  bindOutcome (mapArr (copyObject
                 ["root"; "quality"; "startTime"; "confidence"]%string) cp)
    (fun chordProgression =>
  bindOutcome (get "barChordProgression" e) (fun bcp =>
  bindOutcome (mapArr (copyObject BAR_CHORD_FIELDS) bcp) (fun barChordProgression =>
  bindOutcome (copyFields ["currentBar"; "barDuration"]%string e) (fun bars =>
  bindOutcome (get "votedPattern" e) (fun vp =>
  bindOutcome (mapArr (copyObject BAR_CHORD_FIELDS) (orElse vp (Arr [])))
    (fun votedPattern =>
  bindOutcome (get "patternLength" e) (fun patternLength =>
  bindOutcome (get "detectedPatternName" e) (fun name =>
  bindOutcome (get "detectedPatternScore" e) (fun score =>
  bindOutcome (get "allPatternScores" e) (fun aps =>
  bindOutcome (mapArr (copyObject ["name"; "score"]%string) (orElse aps (Arr [])))
    (fun allPatternScores =>
  bindOutcome (copyFields ["accumulatedSeconds"; "usedFrames"; "updated"]%string e)
    (fun tail =>
  Return
    (Obj (totals
          ++ [("estimate",
               Obj (head
                    ++ [("chordProgression", chordProgression);
                        ("barChordProgression", barChordProgression)]
                    ++ bars
                    ++ [("votedPattern", votedPattern);
                        ("patternLength", patternLength);
                        ("detectedPatternName", orElse name (Str EmptyString));
                        ("detectedPatternScore", orElse score (Num 0));
                        ("allPatternScores", allPatternScores)]
                    ++ tail))]))%string)))))))))))))))).

End Conversions.

(** A native [stats()] result without the optional parts, for examples. *)
Definition exampleNativeStats : @Value unit :=
  Obj [("totalFrames", Num 3);
       ("estimate",
        Obj [("bpm", Num 120); ("chordProgression", Arr []);
             ("barChordProgression", Arr [])])]%string.

End Wasm.

(* ====================================================================== *)
(** ** Configuration of the composable (useStreamAnalyzer.ts) *)
(* ====================================================================== *)

Module ComposableConfig.

Import Wasm.

(** An optional property of the [options] object: not there, there with the
    value [undefined], or there with a value. *)
Inductive Optional (A : Type) : Type :=
| Absent
| ExplicitUndefined
| Given (a : A).
Arguments Absent {A}.
Arguments ExplicitUndefined {A}.
Arguments Given {A} a.

(** The [options] argument of [useStreamAnalyzer]. *)
Record Options : Type := mkOptions {
  o_sampleRate : Z;
  o_nFft : Optional Z;
  o_hopLength : Optional Z;
  o_nMels : Optional Z;
  o_computeMel : Optional bool;
  o_computeChroma : Optional bool;
  o_computeOnset : Optional bool;
  o_emitEveryNFrames : Optional Z
}.

(** [options.k]: [undefined] unless the property has a value. *)
Definition readOption {A : Type} (o : Optional A) : option A :=
  match o with
  | Given a => Some a
  | Absent | ExplicitUndefined => None
  end.

(** The property [k] of [{ k: d, ...options }]: a property of [options]
    replaces the one before the spread, also when its value is
    [undefined]. *)
Definition spread {A : Type} (d : A) (o : Optional A) : option A :=
  match o with
  | Absent => Some d
  | ExplicitUndefined => None
  | Given a => Some a
  end.

(** [const defaultConfig = { sampleRate: 44100, nFft: 2048, ..., ...options }]. *)
Definition defaultConfig (options : Options) : StreamConfig :=
  {| sampleRate := o_sampleRate options;
     nFft := spread 2048 (o_nFft options);
     hopLength := spread 512 (o_hopLength options);
     nMels := spread 128 (o_nMels options);
     computeMel := spread true (o_computeMel options);
     computeChroma := spread true (o_computeChroma options);
     computeOnset := spread true (o_computeOnset options);
     emitEveryNFrames := spread 1 (o_emitEveryNFrames options) |}.

(** The three assignments to [defaultConfig] in [reinit(newSampleRate)]. *)
Definition reinitConfig (newSampleRate : Z) (options : Options)
    (config : StreamConfig) : StreamConfig :=
  {| sampleRate := newSampleRate;
     nFft := Some (nullish (readOption (o_nFft options)) 2048);
     hopLength := Some (nullish (readOption (o_hopLength options)) 512);
     nMels := nMels config;
     computeMel := computeMel config;
     computeChroma := computeChroma config;
     computeOnset := computeOnset config;
     emitEveryNFrames := emitEveryNFrames config |}.

(** The [options] object read as a [StreamConfig], property by property. *)
Definition asConfig (options : Options) : StreamConfig :=
  {| sampleRate := o_sampleRate options;
     nFft := readOption (o_nFft options);
     hopLength := readOption (o_hopLength options);
     nMels := readOption (o_nMels options);
     computeMel := readOption (o_computeMel options);
     computeChroma := readOption (o_computeChroma options);
     computeOnset := readOption (o_computeOnset options);
     emitEveryNFrames := readOption (o_emitEveryNFrames options) |}.

(** [defaultConfig.nMels ?? 128], the mel band count that
    [accumulateFrames], [updateStreamingData] and [reset] use. *)
Definition melBands (config : StreamConfig) : Z := nullish (nMels config) 128.

(** [defaultConfig] after the calls [reinit(r)] for the rates [r] of
    [rates], in order. *)
Definition afterReinits (options : Options) (rates : list Z) : StreamConfig :=
  fold_left (fun config r => reinitConfig r options config) rates
            (defaultConfig options).

(** The [options] with another sample rate. *)
Definition withSampleRate (r : Z) (options : Options) : Options :=
  mkOptions r (o_nFft options) (o_hopLength options) (o_nMels options)
            (o_computeMel options) (o_computeChroma options)
            (o_computeOnset options) (o_emitEveryNFrames options).

End ComposableConfig.

(* ====================================================================== *)
(** ** Normalization gain (components/AudioAnalyzer.vue) *)
(* ====================================================================== *)

Module Gain.








End Gain.

(* ====================================================================== *)
(** ** Properties of the pattern detector *)
(* ====================================================================== *)

Module ProgressionProofs.

Import Progression.

(** *** The detector on a few inputs *)

Example chordToDegree_wraps : chordToDegree 0 9 = 3.
Proof. reflexivity. Qed.

Example detect_royalRoad_in_C :
  detectProgressionPattern
    [mkChord 0 0; mkChord 7 0; mkChord 9 1; mkChord 5 0] 0
  = Some (mkResult "royalRoad" "I-V-vim-IV" (4 # 4)).
Proof. vm_compute. reflexivity. Qed.

Example detect_three_chords_is_null :
  detectProgressionPattern [mkChord 0 0; mkChord 7 0; mkChord 9 1] 0 = None.
Proof. reflexivity. Qed.

(** Both templates reach 1, the earlier one in the list is reported. *)
Example detect_tie_goes_to_first_template :
  detectProgressionPattern royalRoadThenCanon 0
  = Some (mkResult "royalRoad" "I-V-vim-IV" (4 # 4)).
Proof. vm_compute. reflexivity. Qed.

(** Only degrees match, every quality is augmented: half credit throughout. *)
Example detect_half_credit :
  option_map (fun r => (cpp_key r, Qred (cpp_confidence r)))
    (detectProgressionPattern
       [mkChord 0 3; mkChord 7 3; mkChord 9 3; mkChord 5 3] 0)
  = Some ("royalRoad"%string, 1 # 2).
Proof. vm_compute. reflexivity. Qed.

(** *** Lists *)

Lemma fold_left_flat_map {A B C : Type} (f : A -> C -> A) (g : B -> list C)
    (l : list B) (a : A) :
  fold_left f (flat_map g l) a = fold_left (fun acc x => fold_left f (g x) acc) l a.
Proof.
  revert a. induction l as [|x l IH]; intros a; simpl.
  - reflexivity.
  - rewrite fold_left_app. apply IH.
Qed.

Lemma nth_error_flat_map_at {A B : Type} (f : A -> list B) (l : list A) :
  forall p d k x,
    nth_error l p = Some d -> nth_error (f d) k = Some x ->
    nth_error (flat_map f l) (emittedBefore f l p + k) = Some x.
Proof.
  unfold emittedBefore.
  induction l as [|y l IH]; intros p d k x Hp Hk.
  - destruct p; discriminate.
  - destruct p as [|p]; simpl in *.
    + injection Hp as ->. rewrite nth_error_app1; [exact Hk|].
      apply nth_error_Some. congruence.
    + rewrite length_app, <- Nat.add_assoc, nth_error_app2 by lia.
      replace (length (f y) + _ - length (f y))%nat
        with (length (flat_map f (firstn p l)) + k)%nat by lia.
      eapply IH; eauto.
Qed.

Lemma nth_error_flat_map_inv {A B : Type} (f : A -> list B) (l : list A) :
  forall n x,
    nth_error (flat_map f l) n = Some x ->
    exists p d k,
      nth_error l p = Some d /\ nth_error (f d) k = Some x
      /\ n = (emittedBefore f l p + k)%nat.
Proof.
  unfold emittedBefore.
  induction l as [|y l IH]; intros n x Hn; simpl in Hn.
  - destruct n; discriminate.
  - destruct (Nat.lt_ge_cases n (length (f y))) as [Hlt|Hge].
    + rewrite nth_error_app1 in Hn by exact Hlt.
      exists 0%nat, y, n. simpl. auto.
    + rewrite nth_error_app2 in Hn by exact Hge.
      destruct (IH _ _ Hn) as (p & d & k & Hp & Hk & Heq).
      exists (S p), d, k. simpl. rewrite length_app. repeat split; auto. lia.
Qed.

Lemma emittedBefore_mono {A B : Type} (f : A -> list B) (l : list A) :
  forall p p' d',
    (p' < p)%nat -> nth_error l p' = Some d' ->
    (emittedBefore f l p' + length (f d') <= emittedBefore f l p)%nat.
Proof.
  unfold emittedBefore.
  induction l as [|y l IH]; intros p p' d' Hlt Hp'.
  - destruct p'; discriminate.
  - destruct p as [|p]; [lia|].
    destruct p' as [|p']; simpl in *.
    + injection Hp' as ->. rewrite length_app. lia.
    + rewrite !length_app. specialize (IH p p' d' ltac:(lia) Hp'). lia.
Qed.

(** *** The selection loop *)

Lemma findBestMatch_candidates (patterns : list ProgressionDef)
    (degrees : list DegreeChord) :
  findBestMatch patterns degrees
  = fold_left (tryCandidate degrees) (candidates patterns degrees) None.
Proof.
  unfold findBestMatch, candidates. rewrite fold_left_flat_map.
  generalize (@None (ProgressionDef * Q)).
  induction patterns as [|def patterns IH]; intros best; simpl.
  - reflexivity.
  - rewrite <- IH. f_equal. unfold tryPattern.
    generalize (startOffsets def degrees). intros offs. revert best.
    induction offs as [|o offs IHo]; intros best; simpl; [reflexivity|].
    apply IHo.
Qed.

Lemma improves_true (bestMatch : BestMatch) (q : Q) :
  improves bestMatch q = true <->
  (1 # 2 <= q)%Q
  /\ match bestMatch with None => True | Some (_, c) => (c < q)%Q end.
Proof.
  unfold improves. rewrite andb_true_iff, Qle_bool_iff.
  destruct bestMatch as [[d c]|]; [|tauto].
  rewrite negb_true_iff. split; intros [H1 H2]; split; auto.
  - apply Qnot_le_lt. intros Hle. apply Qle_bool_iff in Hle. congruence.
  - destruct (Qle_bool q c) eqn:E; [|reflexivity].
    apply Qle_bool_iff in E. exfalso. eapply Qlt_not_le; eauto.
Qed.

Lemma improves_false (bestMatch : BestMatch) (q : Q) :
  improves bestMatch q = false ->
  (q < 1 # 2)%Q
  \/ match bestMatch with None => False | Some (_, c) => (q <= c)%Q end.
Proof.
  unfold improves. intros H. apply andb_false_iff in H. destruct H as [H|H].
  - left. apply Qnot_le_lt. intros Hle. apply Qle_bool_iff in Hle. congruence.
  - destruct bestMatch as [[d c]|]; [|discriminate].
    right. apply negb_false_iff, Qle_bool_iff in H. exact H.
Qed.

Lemma selection_invariant (degrees : list DegreeChord) :
  forall seen,
    Selected degrees seen (fold_left (tryCandidate degrees) seen None).
Proof.
  induction seen as [|c seen IH] using rev_ind.
  - simpl. intros c [].
  - rewrite fold_left_app. simpl.
    set (best := fold_left (tryCandidate degrees) seen None) in *.
    unfold tryCandidate at 1, tryStart.
    fold (candidateConfidence degrees c).
    set (q := candidateConfidence degrees c).
    destruct (improves best q) eqn:E.
    + apply improves_true in E. destruct E as [Hq Hbest].
      simpl. exists (length seen), (snd c).
      rewrite nth_error_app2, Nat.sub_diag by lia. simpl.
      replace (fst c, snd c) with c by (destruct c; reflexivity).
      fold q. repeat split; auto.
      * intros c' Hin. apply in_app_or in Hin. destruct Hin as [Hin|[<-|[]]].
        -- destruct best as [[d0 q0]|]; simpl in IH.
           ++ destruct IH as (n & st & _ & _ & _ & Hall & _).
              apply Qle_trans with q0; [auto|apply Qlt_le_weak; exact Hbest].
           ++ apply Qlt_le_weak. eapply Qlt_le_trans; [apply IH; exact Hin|exact Hq].
        -- apply Qle_refl.
      * intros j c' Hj Hnth. rewrite nth_error_app1 in Hnth by exact Hj.
        apply nth_error_In in Hnth.
        destruct best as [[d0 q0]|]; simpl in IH.
        -- destruct IH as (n & st & _ & _ & _ & Hall & _).
           eapply Qle_lt_trans; [apply Hall; exact Hnth|exact Hbest].
        -- eapply Qlt_le_trans; [apply IH; exact Hnth|exact Hq].
    + apply improves_false in E.
      destruct best as [[d0 q0]|]; simpl in IH |- *.
      * destruct IH as (n & st & Hn & Hq0 & Hhalf & Hall & Hfirst).
        exists n, st.
        assert (Hlt : (n < length seen)%nat)
          by (apply nth_error_Some; congruence).
        rewrite nth_error_app1 by exact Hlt. repeat split; auto.
        -- intros c' Hin. apply in_app_or in Hin. destruct Hin as [Hin|[<-|[]]].
           ++ auto.
           ++ fold q. destruct E as [E|E]; [|exact E].
              apply Qlt_le_weak. eapply Qlt_le_trans; eauto.
        -- intros j c' Hj Hnth.
           rewrite nth_error_app1 in Hnth by lia. eauto.
      * destruct E as [E|[]].
        intros c' Hin. apply in_app_or in Hin. destruct Hin as [Hin|[<-|[]]]; auto.
Qed.

(** *** Where the candidates sit in the visiting order *)

Lemma validOffset_iff (def : ProgressionDef) (degrees : list DegreeChord) (start : nat) :
  validOffset def degrees start
  <-> (start < length degrees + 1 - length (pd_pattern def))%nat.
Proof. unfold validOffset. lia. Qed.

Lemma nth_error_offsets (def : ProgressionDef) (degrees : list DegreeChord)
    (k : nat) (c : ProgressionDef * nat) :
  nth_error (map (pair def) (startOffsets def degrees)) k = Some c
  <-> c = (def, k) /\ validOffset def degrees k.
Proof.
  unfold startOffsets. rewrite nth_error_map, nth_error_seq, validOffset_iff.
  destruct (Nat.ltb_spec k (length degrees + 1 - length (pd_pattern def))); simpl.
  - split; [intros [= <-]; auto | intros [-> _]; reflexivity].
  - split; [discriminate | intros [_ H']; lia].
Qed.

Lemma candidate_at (patterns : list ProgressionDef) (degrees : list DegreeChord)
    (p : nat) (def : ProgressionDef) (start : nat) :
  nth_error patterns p = Some def -> validOffset def degrees start ->
  nth_error (candidates patterns degrees)
            (emittedBefore (fun d => map (pair d) (startOffsets d degrees)) patterns p
             + start)
  = Some (def, start).
Proof.
  intros Hp Hv. unfold candidates.
  eapply nth_error_flat_map_at; [exact Hp|].
  apply nth_error_offsets. auto.
Qed.

Lemma candidate_inv (patterns : list ProgressionDef) (degrees : list DegreeChord)
    (n : nat) (def : ProgressionDef) (start : nat) :
  nth_error (candidates patterns degrees) n = Some (def, start) ->
  exists p,
    nth_error patterns p = Some def /\ validOffset def degrees start
    /\ n = (emittedBefore (fun d => map (pair d) (startOffsets d degrees)) patterns p
            + start)%nat.
Proof.
  intros Hn. apply nth_error_flat_map_inv in Hn.
  destruct Hn as (p & d & k & Hp & Hk & ->).
  apply nth_error_offsets in Hk. destruct Hk as [[= <- <-] Hv].
  exists p. auto.
Qed.

(** What the two outer loops leave in [bestMatch], for any template list. *)
Lemma findBestMatch_first_best (patterns : list ProgressionDef)
    (degrees : list DegreeChord) :
  match findBestMatch patterns degrees with
  | None =>
      forall def start,
        In def patterns -> validOffset def degrees start ->
        (confidenceAt (pd_pattern def) degrees start < 1 # 2)%Q
  | Some (def, q) =>
      exists p start,
        nth_error patterns p = Some def
        /\ validOffset def degrees start
        /\ q = confidenceAt (pd_pattern def) degrees start
        /\ (1 # 2 <= q)%Q
        /\ (forall p' def' start',
              nth_error patterns p' = Some def' -> validOffset def' degrees start' ->
              (confidenceAt (pd_pattern def') degrees start' <= q)%Q)
        /\ (forall p' def' start',
              nth_error patterns p' = Some def' -> validOffset def' degrees start' ->
              (p' < p)%nat \/ (p' = p /\ (start' < start)%nat) ->
              (confidenceAt (pd_pattern def') degrees start' < q)%Q)
  end.
Proof.
  rewrite findBestMatch_candidates.
  pose proof (selection_invariant degrees (candidates patterns degrees)) as Hsel.
  destruct (fold_left (tryCandidate degrees) (candidates patterns degrees) None)
    as [[def q]|]; simpl in Hsel.
  - destruct Hsel as (n & start & Hn & Hq & Hhalf & Hall & Hfirst).
    destruct (candidate_inv _ _ _ _ _ Hn) as (p & Hp & Hv & ->).
    exists p, start. repeat split; auto.
    + intros p' def' start' Hp' Hv'.
      apply (Hall (def', start')).
      eapply nth_error_In, candidate_at; eauto.
    + intros p' def' start' Hp' Hv' Hlex.
      pose proof (candidate_at _ _ _ _ _ Hp' Hv') as Hc.
      refine (Hfirst _ (def', start') _ Hc).
      destruct Hlex as [Hlt|[-> Hlt]]; [|lia].
      pose proof (emittedBefore_mono
                    (fun d => map (pair d) (startOffsets d degrees))
                    patterns p p' def' Hlt Hp') as Hmono.
      unfold startOffsets in Hmono at 2.
      rewrite length_map, length_seq in Hmono.
      apply validOffset_iff in Hv'. lia.
  - intros def start Hin Hv.
    destruct (In_nth_error _ _ Hin) as [p Hp].
    apply (Hsel (def, start)).
    eapply nth_error_In, candidate_at; eauto.
Qed.

(** *** The scoring loop *)

(** Inside the loops both array reads stay in range. *)
Lemma window_index_in_range (def : ProgressionDef) (degrees : list DegreeChord)
    (start i : nat) :
  In start (startOffsets def degrees) -> (i < length (pd_pattern def))%nat ->
  (start + i < length degrees)%nat.
Proof.
  unfold startOffsets. rewrite in_seq. lia.
Qed.

Lemma firstn_succ_nth {A : Type} (d : A) (l : list A) :
  forall n, (n < length l)%nat -> firstn (S n) l = firstn n l ++ [nth n l d].
Proof.
  induction l as [|x l IH]; intros n Hn; simpl in Hn; [lia|].
  destruct n as [|n]; [reflexivity|].
  change (x :: firstn (S n) l = x :: (firstn n l ++ [nth n l d])).
  f_equal. apply IH. lia.
Qed.

Lemma fullStep_or_halfStep (e : Z * Z) (a : DegreeChord) :
  fullStep e a = (degree a =? fst e) && qualityMatch (dquality a) (snd e)
  /\ halfStep e a = (degree a =? fst e) && negb (qualityMatch (dquality a) (snd e)).
Proof.
  unfold fullStep, halfStep, qualityMatch.
  destruct (degree a =? fst e); simpl; [|auto].
  destruct (Z.eqb_spec (dquality a) (snd e)) as [->|Hne]; simpl.
  - split; [reflexivity|]. reflexivity.
  - split; [reflexivity|].
    destruct (Z.leb_spec (snd e) 1), (Z.leb_spec (dquality a) 1),
             (Z.ltb_spec 1 (snd e)), (Z.ltb_spec 1 (dquality a));
      simpl; try reflexivity; lia.
Qed.

Lemma window_length (pat : list (Z * Z)) (degrees : list DegreeChord) (start : nat) :
  (start + length pat <= length degrees)%nat ->
  length (window pat degrees start) = length pat.
Proof.
  intros Hv. unfold window. rewrite length_firstn, length_skipn. lia.
Qed.

Lemma matchesAt_counts (pat : list (Z * Z)) (degrees : list DegreeChord) (start : nat) :
  (start + length pat <= length degrees)%nat ->
  (matchesAt pat degrees start == scoredMatches pat (window pat degrees start))%Q.
Proof.
  intros Hv. unfold matchesAt, scoredMatches, countSteps.
  pose proof (window_length pat degrees start Hv) as Hw.
  set (w := window pat degrees start) in *.
  set (z := combine pat w).
  assert (Hz : length z = length pat)
    by (unfold z; rewrite length_combine; lia).
  rewrite <- (firstn_all z) at 1 2. rewrite Hz.
  assert (Hn : (length pat <= length pat)%nat) by lia.
  revert Hn. generalize (length pat) at 1 3 4 5. intros n.
  induction n as [|n IH]; intros Hn.
  - simpl. reflexivity.
  - rewrite seq_S, fold_left_app. cbn [fold_left Nat.add].
    assert (Hnth : nth n z ((0, 0), mkDegree 0 0)
                   = (nth n pat (0, 0), nth (start + n) degrees (mkDegree 0 0))).
    { unfold z. rewrite combine_nth by lia. f_equal.
      unfold w, window. rewrite nth_firstn.
      destruct (Nat.ltb_spec n (length pat)); [|lia]. apply nth_skipn. }
    rewrite (firstn_succ_nth ((0, 0), mkDegree 0 0)) by lia.
    rewrite Hnth, !filter_app, !length_app, !Nat2Z.inj_add, !inject_Z_plus.
    unfold scoreStep at 1.
    destruct (nth n pat (0, 0)) as [expectedDegree expectedQuality].
    set (a := nth (start + n) degrees (mkDegree 0 0)).
    cbn [filter fst snd].
    destruct (fullStep_or_halfStep (expectedDegree, expectedQuality) a) as [-> ->].
    cbn [fst snd].
    specialize (IH ltac:(lia)).
    destruct (degree a =? expectedDegree); cbn [andb].
    + destruct (qualityMatch (dquality a) expectedQuality); cbn [negb length];
        rewrite IH; change (inject_Z (Z.of_nat 1)) with 1%Q;
        change (inject_Z (Z.of_nat 0)) with 0%Q; ring.
    + cbn [length]. rewrite IH. change (inject_Z (Z.of_nat 0)) with 0%Q. ring.
Qed.

(** *** The detector *)

Lemma patterns_have_four_steps :
  Forall (fun def => length (pd_pattern def) = 4%nat) PROGRESSION_PATTERNS.
Proof. repeat constructor. Qed.

Lemma slice_last_length {A : Type} (n : nat) (l : list A) :
  length (slice_last n l) = Nat.min n (length l).
Proof. unfold slice_last. rewrite length_skipn. lia. Qed.

Lemma toDegrees_length (barChords : list Chord) (keyRoot : Z) :
  length (toDegrees barChords keyRoot) = Nat.min 8 (length barChords).
Proof. unfold toDegrees. rewrite length_map. apply slice_last_length. Qed.

(** C1, as amended: wherever a template of the list is slid inside the
    recent chords, the loop's match count is 1 for each step of equal degree
    whose quality is the expected one or is, like the expected one, major or
    minor, plus 0.5 for each step of equal degree whose quality differs with
    one of the two beyond minor, and nothing for a step of different degree;
    a reported match carries the key of one of the templates and, as its
    confidence, that template's match count at some such offset divided by
    the pattern length 4, and this confidence is at least 0.5. *)
Theorem detect_confidence_scoring :
  forall (barChords : list Chord) (keyRoot : Z)
         (def : ProgressionDef) (start : nat) (r : ChordProgressionPattern),
    (In def PROGRESSION_PATTERNS ->
     validOffset def (toDegrees barChords keyRoot) start ->
     (matchesAt (pd_pattern def) (toDegrees barChords keyRoot) start
      == scoredMatches (pd_pattern def)
           (window (pd_pattern def) (toDegrees barChords keyRoot) start))%Q
     /\ confidenceAt (pd_pattern def) (toDegrees barChords keyRoot) start
        = (matchesAt (pd_pattern def) (toDegrees barChords keyRoot) start / 4)%Q)
    /\ (detectProgressionPattern barChords keyRoot = Some r ->
        exists def' start',
          In def' PROGRESSION_PATTERNS
          /\ validOffset def' (toDegrees barChords keyRoot) start'
          /\ cpp_key r = pd_key def'
          /\ cpp_confidence r
             = confidenceAt (pd_pattern def') (toDegrees barChords keyRoot) start'
          /\ (1 # 2 <= cpp_confidence r)%Q).
Proof.
  intros barChords keyRoot def start r. split.
  - intros Hin Hv. split.
    + apply matchesAt_counts. exact Hv.
    + unfold confidenceAt.
      rewrite (proj1 (Forall_forall _ _) patterns_have_four_steps def Hin).
      reflexivity.
  - intros Hr.
    unfold detectProgressionPattern, detectWith in Hr.
    destruct (length barChords <? 4)%nat; [discriminate|].
    pose proof (findBestMatch_first_best PROGRESSION_PATTERNS
                  (toDegrees barChords keyRoot)) as Hbest.
    destruct (findBestMatch PROGRESSION_PATTERNS (toDegrees barChords keyRoot))
      as [[def' q]|]; [|discriminate].
    injection Hr as <-.
    destruct Hbest as (p & start' & Hp & Hv & Hq & Hhalf & _).
    exists def', start'. apply nth_error_In in Hp. auto.
Qed.

Lemma detect_confidence_scoring_witness :
  (matchesAt royalRoadPattern (toDegrees diminishedTwice 0) 0
   == scoredMatches royalRoadPattern
        (window royalRoadPattern (toDegrees diminishedTwice 0) 0))%Q
  /\ exists def' start',
       In def' PROGRESSION_PATTERNS
       /\ validOffset def' (toDegrees diminishedTwice 0) start'
       /\ "royalRoad"%string = pd_key def'
       /\ 12 # 16 = confidenceAt (pd_pattern def') (toDegrees diminishedTwice 0) start'
       /\ (1 # 2 <= 12 # 16)%Q.
Proof.
  split.
  - apply (proj1 (detect_confidence_scoring diminishedTwice 0
                    (mkDef "royalRoad" royalRoadPattern) 0
                    (mkResult "royalRoad" "I-V-vim-IV" (12 # 16)))).
    + simpl. auto.
    + unfold validOffset. simpl. lia.
  - apply (proj2 (detect_confidence_scoring diminishedTwice 0
                    (mkDef "royalRoad" royalRoadPattern) 0
                    (mkResult "royalRoad" "I-V-vim-IV" (12 # 16)))).
    vm_compute. reflexivity.
Defined.

(** C1, as stated, fails: with C minor, G minor, A major, F minor in the key
    of C every step of I-V-VIm-IV has the right degree and the other of the
    two qualities major and minor; the loop counts 4 matches and the detector
    reports confidence 1, where half a point per such step would give 2. *)
Lemma scoring_claim_counterexample :
  detectProgressionPattern exchangedQualities 0
  = Some (mkResult "royalRoad" "I-V-vim-IV" (4 # 4))
  /\ (matchesAt royalRoadPattern (toDegrees exchangedQualities 0) 0 == 4)%Q
  /\ (spec_matchesAt royalRoadPattern (toDegrees exchangedQualities 0) 0 == 2)%Q
  /\ ~ (matchesAt royalRoadPattern (toDegrees exchangedQualities 0) 0
        == spec_matchesAt royalRoadPattern (toDegrees exchangedQualities 0) 0)%Q.
Proof.
  repeat split.
  vm_compute. intros H. discriminate H.
Qed.

(** C2: in each of the twelve keys, the four bar-chords I, V, VIm, IV of that
    key are detected as "royalRoad" with confidence at least 0.99. *)
Theorem royalRoad_detected_in_every_key :
  forall k : Z,
    0 <= k < 12 ->
    exists r,
      detectProgressionPattern (royalRoadIn k) k = Some r
      /\ cpp_key r = "royalRoad"%string
      /\ (99 # 100 <= cpp_confidence r)%Q.
Proof.
  intros k Hk.
  assert (Hcases : k = 0 \/ k = 1 \/ k = 2 \/ k = 3 \/ k = 4 \/ k = 5 \/ k = 6
                   \/ k = 7 \/ k = 8 \/ k = 9 \/ k = 10 \/ k = 11) by lia.
  repeat (destruct Hcases as [->|Hcases]); try subst k;
    (eexists; split; [vm_compute; reflexivity|];
     split; [reflexivity|vm_compute; discriminate]).
Qed.

Lemma royalRoad_detected_in_every_key_witness :
  exists r,
    detectProgressionPattern (royalRoadIn 3) 3 = Some r
    /\ cpp_key r = "royalRoad"%string
    /\ (99 # 100 <= cpp_confidence r)%Q.
Proof.
  apply (royalRoad_detected_in_every_key 3). lia.
Defined.

(** C3: the detector reports nothing exactly when no template at no fitting
    offset reaches confidence 0.5; otherwise it reports a template and
    offset whose confidence is at least 0.5 and at least that of every other
    template and fitting offset, and strictly greater than that of every
    template earlier in the list and of every earlier offset of the same
    template. *)
Theorem detect_reports_first_best :
  forall (barChords : list Chord) (keyRoot : Z),
    match detectProgressionPattern barChords keyRoot with
    | None =>
        forall def start,
          In def PROGRESSION_PATTERNS ->
          validOffset def (toDegrees barChords keyRoot) start ->
          (confidenceAt (pd_pattern def) (toDegrees barChords keyRoot) start < 1 # 2)%Q
    | Some r =>
        exists p def start,
          nth_error PROGRESSION_PATTERNS p = Some def
          /\ validOffset def (toDegrees barChords keyRoot) start
          /\ r = report def
                   (confidenceAt (pd_pattern def) (toDegrees barChords keyRoot) start)
          /\ (1 # 2 <= cpp_confidence r)%Q
          /\ (forall p' def' start',
                nth_error PROGRESSION_PATTERNS p' = Some def' ->
                validOffset def' (toDegrees barChords keyRoot) start' ->
                (confidenceAt (pd_pattern def') (toDegrees barChords keyRoot) start'
                 <= cpp_confidence r)%Q)
          /\ (forall p' def' start',
                nth_error PROGRESSION_PATTERNS p' = Some def' ->
                validOffset def' (toDegrees barChords keyRoot) start' ->
                (p' < p)%nat \/ (p' = p /\ (start' < start)%nat) ->
                (confidenceAt (pd_pattern def') (toDegrees barChords keyRoot) start'
                 < cpp_confidence r)%Q)
    end.
Proof.
  intros barChords keyRoot.
  unfold detectProgressionPattern, detectWith.
  destruct (Nat.ltb_spec (length barChords) 4) as [Hshort|Hlong].
  - intros def start Hin Hv. exfalso.
    pose proof (proj1 (Forall_forall _ _) patterns_have_four_steps def Hin) as H4.
    unfold validOffset in Hv. rewrite toDegrees_length, H4 in Hv. lia.
  - pose proof (findBestMatch_first_best PROGRESSION_PATTERNS
                  (toDegrees barChords keyRoot)) as Hbest.
    destruct (findBestMatch PROGRESSION_PATTERNS (toDegrees barChords keyRoot))
      as [[def q]|]; [|exact Hbest].
    destruct Hbest as (p & start & Hp & Hv & -> & Hhalf & Hall & Hfirst).
    exists p, def, start. simpl. auto 10.
Qed.

Lemma detect_reports_first_best_witness :
  exists p def start,
    nth_error PROGRESSION_PATTERNS p = Some def
    /\ validOffset def (toDegrees royalRoadThenCanon 0) start
    /\ mkResult "royalRoad" "I-V-vim-IV" (4 # 4)
       = report def (confidenceAt (pd_pattern def) (toDegrees royalRoadThenCanon 0) start).
Proof.
  pose proof (detect_reports_first_best royalRoadThenCanon 0) as H.
  rewrite detect_tie_goes_to_first_template in H.
  destruct H as (p & def & start & Hp & Hv & Hr & _).
  exists p, def, start. auto.
Defined.

(** C10: fewer than four bar-chords give no result, and two inputs with the
    same last eight entries and the same key root give the same result. *)
Theorem detect_depends_on_recent_chords :
  forall (barChords barChords' : list Chord) (keyRoot : Z),
    ((length barChords < 4)%nat ->
     detectProgressionPattern barChords keyRoot = None)
    /\ (slice_last 8 barChords = slice_last 8 barChords' ->
        detectProgressionPattern barChords keyRoot
        = detectProgressionPattern barChords' keyRoot).
Proof.
  intros barChords barChords' keyRoot. split.
  - intros Hshort. unfold detectProgressionPattern, detectWith.
    destruct (Nat.ltb_spec (length barChords) 4); [reflexivity|lia].
  - intros Hsame. unfold detectProgressionPattern, detectWith, toDegrees.
    rewrite Hsame.
    assert (Hlen : Nat.min 8 (length barChords) = Nat.min 8 (length barChords')).
    { rewrite <- !slice_last_length. rewrite Hsame. reflexivity. }
    destruct (Nat.ltb_spec (length barChords) 4),
             (Nat.ltb_spec (length barChords') 4); try reflexivity; lia.
Qed.

Lemma detect_depends_on_recent_chords_witness :
  detectProgressionPattern [mkChord 0 0; mkChord 7 0; mkChord 9 1] 0 = None
  /\ detectProgressionPattern
       [mkChord 2 0; mkChord 0 0; mkChord 7 0; mkChord 9 1; mkChord 5 0;
        mkChord 0 0; mkChord 7 0; mkChord 9 2; mkChord 5 0] 0
     = detectProgressionPattern
       [mkChord 4 1; mkChord 11 2; mkChord 0 0; mkChord 7 0; mkChord 9 1;
        mkChord 5 0; mkChord 0 0; mkChord 7 0; mkChord 9 2; mkChord 5 0] 0.
Proof.
  split.
  - apply (proj1 (detect_depends_on_recent_chords
                    [mkChord 0 0; mkChord 7 0; mkChord 9 1] [] 0)).
    simpl. lia.
  - apply (proj2 (detect_depends_on_recent_chords
             [mkChord 2 0; mkChord 0 0; mkChord 7 0; mkChord 9 1; mkChord 5 0;
              mkChord 0 0; mkChord 7 0; mkChord 9 2; mkChord 5 0]
             [mkChord 4 1; mkChord 11 2; mkChord 0 0; mkChord 7 0; mkChord 9 1;
              mkChord 5 0; mkChord 0 0; mkChord 7 0; mkChord 9 2; mkChord 5 0] 0)).
    reflexivity.
Defined.

(** *** Degrees, transposition and the range of the confidence *)

(** X1: for a chord root and a key root among the pitch classes 0..11 the
    degree is again in 0..11, and going up by the degree from the key root
    gives the chord root back. *)
Theorem chordToDegree_inverse :
  forall chordRoot keyRoot : Z,
    0 <= chordRoot < 12 -> 0 <= keyRoot < 12 ->
    0 <= chordToDegree chordRoot keyRoot < 12
    /\ (keyRoot + chordToDegree chordRoot keyRoot) mod 12 = chordRoot.
Proof.
  intros chordRoot keyRoot Hc Hk. unfold chordToDegree.
  rewrite Z.rem_mod_nonneg by lia.
  pose proof (Z.mod_pos_bound (chordRoot - keyRoot + 12) 12 ltac:(lia)) as Hb.
  split; [lia|].
  rewrite Z.add_mod_idemp_r by lia.
  replace (keyRoot + (chordRoot - keyRoot + 12)) with (chordRoot + 1 * 12) by lia.
  rewrite Z.mod_add by lia. apply Z.mod_small. lia.
Qed.

Lemma chordToDegree_inverse_witness :
  0 <= chordToDegree 2 9 < 12 /\ (9 + chordToDegree 2 9) mod 12 = 2.
Proof. apply (chordToDegree_inverse 2 9); lia. Defined.

Lemma chordToDegree_transpose (t chordRoot keyRoot : Z) :
  0 <= chordRoot < 12 -> 0 <= keyRoot < 12 ->
  chordToDegree ((chordRoot + t) mod 12) ((keyRoot + t) mod 12)
  = chordToDegree chordRoot keyRoot.
Proof.
  intros Hc Hk. unfold chordToDegree.
  pose proof (Z.mod_pos_bound (chordRoot + t) 12 ltac:(lia)).
  pose proof (Z.mod_pos_bound (keyRoot + t) 12 ltac:(lia)).
  rewrite !Z.rem_mod_nonneg by lia.
  rewrite <- (Z.add_mod_idemp_l ((chordRoot + t) mod 12 - (keyRoot + t) mod 12)) by lia.
  rewrite <- Zminus_mod, Z.add_mod_idemp_l by lia.
  f_equal. lia.
Qed.

Lemma Forall_skipn {A : Type} (P : A -> Prop) (n : nat) (l : list A) :
  Forall P l -> Forall P (skipn n l).
Proof.
  intros H. rewrite <- (firstn_skipn n l) in H.
  apply Forall_app in H. apply H.
Qed.

Lemma slice_last_map {A B : Type} (f : A -> B) (n : nat) (l : list A) :
  slice_last n (map f l) = map f (slice_last n l).
Proof. unfold slice_last. rewrite length_map. apply skipn_map. Qed.

(** X2: the detector is relative to the key: moving every chord root and the
    key root up by the same number of semitones (within the twelve pitch
    classes) leaves the result unchanged. *)
Theorem detect_transposition_invariant :
  forall (t : Z) (barChords : list Chord) (keyRoot : Z),
    Forall (fun c => 0 <= root c < 12) barChords ->
    0 <= keyRoot < 12 ->
    detectProgressionPattern (map (transpose t) barChords) ((keyRoot + t) mod 12)
    = detectProgressionPattern barChords keyRoot.
Proof.
  intros t barChords keyRoot Hroots Hk.
  unfold detectProgressionPattern, detectWith.
  rewrite length_map.
  assert (Hdeg : toDegrees (map (transpose t) barChords) ((keyRoot + t) mod 12)
                 = toDegrees barChords keyRoot).
  { unfold toDegrees. rewrite slice_last_map, map_map.
    apply map_ext_in. intros c Hin. simpl.
    assert (Hc : 0 <= root c < 12).
    { unfold slice_last in Hin.
      exact (proj1 (Forall_forall _ _) (Forall_skipn _ _ _ Hroots) c Hin). }
    rewrite chordToDegree_transpose by assumption. reflexivity. }
  rewrite Hdeg. reflexivity.
Qed.

Lemma detect_transposition_invariant_witness :
  detectProgressionPattern
    (map (transpose 5)
         [mkChord 0 0; mkChord 7 0; mkChord 9 1; mkChord 5 0; mkChord 11 2])
    ((10 + 5) mod 12)
  = detectProgressionPattern
      [mkChord 0 0; mkChord 7 0; mkChord 9 1; mkChord 5 0; mkChord 11 2] 10.
Proof.
  apply (detect_transposition_invariant 5).
  - repeat constructor; simpl; lia.
  - lia.
Defined.

Lemma filter_disjoint_length {A : Type} (p q : A -> bool) (l : list A) :
  (forall x, p x && q x = false) ->
  (length (filter p l) + length (filter q l) <= length l)%nat.
Proof.
  intros Hdis. induction l as [|x l IH]; simpl; [lia|].
  specialize (Hdis x).
  destruct (p x), (q x); simpl in *; try discriminate; lia.
Qed.

Lemma countSteps_bound (pat : list (Z * Z)) (w : list DegreeChord) :
  (countSteps fullStep pat w + countSteps halfStep pat w <= length pat)%nat.
Proof.
  unfold countSteps.
  etransitivity; [apply filter_disjoint_length|].
  - intros [e a]. simpl.
    destruct (fullStep_or_halfStep e a) as [-> ->].
    destruct (degree a =? fst e), (qualityMatch (dquality a) (snd e)); reflexivity.
  - rewrite length_combine. lia.
Qed.

(** The confidence of a template of the list at an offset where it fits is
    a number of eighths, two for each full step and one for each half step. *)
Lemma confidenceAt_eighths (def : ProgressionDef) (degrees : list DegreeChord)
    (start : nat) :
  In def PROGRESSION_PATTERNS -> validOffset def degrees start ->
  exists n : Z,
    0 <= n <= 8
    /\ (confidenceAt (pd_pattern def) degrees start == n # 8)%Q.
Proof.
  intros Hin Hv.
  pose proof (proj1 (Forall_forall _ _) patterns_have_four_steps def Hin) as H4.
  pose proof (countSteps_bound (pd_pattern def)
                (window (pd_pattern def) degrees start)) as Hb.
  rewrite H4 in Hb.
  set (F := countSteps fullStep (pd_pattern def)
              (window (pd_pattern def) degrees start)) in *.
  set (H := countSteps halfStep (pd_pattern def)
              (window (pd_pattern def) degrees start)) in *.
  exists (2 * Z.of_nat F + Z.of_nat H). split; [lia|].
  unfold confidenceAt. rewrite (matchesAt_counts _ _ _ Hv), H4.
  unfold scoredMatches. fold F H.
  rewrite (Qmake_Qdiv (2 * Z.of_nat F + Z.of_nat H) 8), inject_Z_plus, inject_Z_mult.
  change (inject_Z (Z.of_nat 4)) with 4%Q.
  change (inject_Z 2) with 2%Q. change (inject_Z (Z.pos 8)) with 8%Q.
  field.
Qed.

(** X3: a reported confidence is one of 4/8, 5/8, 6/8, 7/8 and 8/8; in
    particular it lies between 0.5 and 1. *)
Theorem detect_confidence_in_eighths :
  forall (barChords : list Chord) (keyRoot : Z) (r : ChordProgressionPattern),
    detectProgressionPattern barChords keyRoot = Some r ->
    exists n : Z,
      4 <= n <= 8
      /\ (cpp_confidence r == n # 8)%Q
      /\ (1 # 2 <= cpp_confidence r <= 1)%Q.
Proof.
  intros barChords keyRoot r Hr.
  unfold detectProgressionPattern, detectWith in Hr.
  destruct (length barChords <? 4)%nat; [discriminate|].
  pose proof (findBestMatch_first_best PROGRESSION_PATTERNS
                (toDegrees barChords keyRoot)) as Hbest.
  destruct (findBestMatch PROGRESSION_PATTERNS (toDegrees barChords keyRoot))
    as [[def q]|]; [|discriminate].
  injection Hr as <-. simpl.
  destruct Hbest as (p & start & Hp & Hv & -> & Hhalf & _).
  apply nth_error_In in Hp.
  destruct (confidenceAt_eighths def _ start Hp Hv) as (n & Hn & Heq).
  pose proof Hhalf as Hhalf'. rewrite Heq in Hhalf'.
  assert (Hge : 4 <= n) by (unfold Qle in Hhalf'; simpl in Hhalf'; lia).
  exists n. split; [lia|]. split; [exact Heq|]. split; [exact Hhalf|].
  rewrite Heq. unfold Qle. simpl. lia.
Qed.

Lemma detect_confidence_in_eighths_witness :
  exists n : Z,
    4 <= n <= 8
    /\ (12 # 16 == n # 8)%Q
    /\ (1 # 2 <= 12 # 16 <= 1)%Q.
Proof.
  apply (detect_confidence_in_eighths diminishedTwice 0
           (mkResult "royalRoad" "I-V-vim-IV" (12 # 16))).
  vm_compute. reflexivity.
Defined.

Lemma exact_window_counts (pat : list (Z * Z)) (w : list DegreeChord) :
  map degreePair w = pat ->
  countSteps fullStep pat w = length pat /\ countSteps halfStep pat w = 0%nat.
Proof.
  intros <-. unfold countSteps. rewrite length_map.
  induction w as [|a w [IHf IHh]]; simpl; [auto|].
  unfold fullStep at 1, halfStep at 1, degreePair at 1 3. simpl.
  rewrite !Z.eqb_refl. simpl. split; [f_equal; exact IHf|exact IHh].
Qed.

(** X4: when, at an offset where it fits, the degrees and qualities of the
    recent chords are exactly those of a template of the list, the detector
    reports a match, and with confidence 1. *)
Theorem detect_exact_occurrence :
  forall (barChords : list Chord) (keyRoot : Z)
         (def : ProgressionDef) (start : nat),
    In def PROGRESSION_PATTERNS ->
    validOffset def (toDegrees barChords keyRoot) start ->
    map degreePair (window (pd_pattern def) (toDegrees barChords keyRoot) start)
    = pd_pattern def ->
    exists r,
      detectProgressionPattern barChords keyRoot = Some r
      /\ (cpp_confidence r == 1)%Q.
Proof.
  intros barChords keyRoot def start Hin Hv Hexact.
  pose proof (proj1 (Forall_forall _ _) patterns_have_four_steps def Hin) as H4.
  assert (Hone : (confidenceAt (pd_pattern def) (toDegrees barChords keyRoot) start
                  == 1)%Q).
  { unfold confidenceAt. rewrite (matchesAt_counts _ _ _ Hv).
    unfold scoredMatches.
    destruct (exact_window_counts _ _ Hexact) as [-> ->]. rewrite H4.
    reflexivity. }
  assert (Hlen : (4 <= length barChords)%nat).
  { unfold validOffset in Hv. rewrite toDegrees_length, H4 in Hv. lia. }
  unfold detectProgressionPattern, detectWith.
  destruct (Nat.ltb_spec (length barChords) 4) as [Hshort|_]; [lia|].
  pose proof (findBestMatch_first_best PROGRESSION_PATTERNS
                (toDegrees barChords keyRoot)) as Hbest.
  destruct (findBestMatch PROGRESSION_PATTERNS (toDegrees barChords keyRoot))
    as [[def' q]|].
  - destruct Hbest as (p & start' & Hp & Hv' & Hq & _ & Hall & _).
    eexists. split; [reflexivity|]. simpl.
    destruct (In_nth_error _ _ Hin) as [p0 Hp0].
    pose proof (Hall p0 def start Hp0 Hv) as Hge. rewrite Hone in Hge.
    apply nth_error_In in Hp.
    destruct (confidenceAt_eighths def' _ start' Hp Hv') as (n & Hn & Heq).
    rewrite <- Hq in Heq. apply Qle_antisym; [|exact Hge].
    rewrite Heq. unfold Qle. simpl. lia.
  - exfalso. pose proof (Hbest def start Hin Hv) as Hlt.
    rewrite Hone in Hlt. discriminate Hlt.
Qed.

Lemma detect_exact_occurrence_witness :
  exists r,
    detectProgressionPattern
      [mkChord 3 2; mkChord 2 1; mkChord 10 0; mkChord 0 0; mkChord 5 0;
       mkChord 0 1] 5
    = Some r
    /\ (cpp_confidence r == 1)%Q.
Proof.
  apply (detect_exact_occurrence
           [mkChord 3 2; mkChord 2 1; mkChord 10 0; mkChord 0 0; mkChord 5 0;
            mkChord 0 1] 5
           (mkDef "komuro" [(9, 1); (5, 0); (7, 0); (0, 0)]) 1).
  - simpl. auto.
  - unfold validOffset. simpl. lia.
  - reflexivity.
Defined.

(** X5: the key and the degree string of a reported match are one of the
    seven rows of the rendering table; a minor degree is rendered in lower
    case followed by "m". *)
Theorem detect_rendering :
  forall (barChords : list Chord) (keyRoot : Z) (r : ChordProgressionPattern),
    detectProgressionPattern barChords keyRoot = Some r ->
    In (cpp_key r, cpp_degrees r) RENDERINGS.
Proof.
  intros barChords keyRoot r Hr.
  unfold detectProgressionPattern, detectWith in Hr.
  destruct (length barChords <? 4)%nat; [discriminate|].
  pose proof (findBestMatch_first_best PROGRESSION_PATTERNS
                (toDegrees barChords keyRoot)) as Hbest.
  destruct (findBestMatch PROGRESSION_PATTERNS (toDegrees barChords keyRoot))
    as [[def q]|]; [|discriminate].
  injection Hr as <-.
  destruct Hbest as (p & start & Hp & _).
  apply nth_error_In in Hp. unfold report. cbn [cpp_key cpp_degrees].
  unfold PROGRESSION_PATTERNS in Hp. simpl in Hp.
  repeat (destruct Hp as [<-|Hp]; [vm_compute; tauto|]).
  destruct Hp.
Qed.

Lemma detect_rendering_witness :
  In ("royalRoad"%string, "I-V-vim-IV"%string) RENDERINGS.
Proof.
  apply (detect_rendering exchangedQualities 0
           (mkResult "royalRoad" "I-V-vim-IV" (4 # 4))).
  vm_compute. reflexivity.
Defined.

End ProgressionProofs.

(* ====================================================================== *)
(** ** Properties of the histories and of the published estimate *)
(* ====================================================================== *)

Module ComposableProofs.

Import Composable.

Example chordToName_minor : chordToName 0 1 = "Cm"%string.
Proof. reflexivity. Qed.

Example chordToName_no_chord : chordToName (-1) 0 = "-"%string.
Proof. reflexivity. Qed.

Example keyToName_a_minor : keyToName 9 true = "Am"%string.
Proof. reflexivity. Qed.

Example accumulateFrames_skips_empty_buffer :
  accumulateFrames (mkFrameBuffer 0 [] [] [] [] [] [] [] [] [] []) clearHistories
  = clearHistories.
Proof. reflexivity. Qed.

Example accumulateFrames_pushes_everywhere :
  accumulateFrames (oneFrame 1) clearHistories
  = mkHistories [[]] [[0%float]] [[]] [[1%float]] [[0%float]] [[0%float]] [[0%float]].
Proof. reflexivity. Qed.

Lemma evictLoop_step (fuel : nat) (h : Histories) :
  evictLoop (S fuel) h
  = if (maxChunks <? length (chromaHistory h))%nat
    then evictLoop fuel (shiftAll h)
    else h.
Proof. reflexivity. Qed.

Lemma shiftAll_aligned (h : Histories) : Aligned h -> Aligned (shiftAll h).
Proof.
  unfold Aligned, shiftAll, shift. simpl. rewrite !length_tl.
  intros (-> & -> & -> & -> & -> & ->). auto 10.
Qed.

Lemma pushFrames_aligned (frames : FrameBuffer) (h : Histories) :
  Aligned h -> Aligned (pushFrames frames h).
Proof.
  unfold Aligned, pushFrames, push. simpl. rewrite !last_length.
  intros (-> & -> & -> & -> & -> & ->). auto 10.
Qed.

Lemma evictLoop_aligned (fuel : nat) :
  forall h, Aligned h -> Aligned (evictLoop fuel h).
Proof.
  induction fuel as [|fuel IH]; intros h Hal; [exact Hal|].
  rewrite evictLoop_step.
  destruct (maxChunks <? length (chromaHistory h))%nat; [|exact Hal].
  apply IH, shiftAll_aligned, Hal.
Qed.

(** The loop leaves through its condition: the length of [chromaHistory] is
    fuel enough. *)
Lemma evictLoop_exits (fuel : nat) :
  forall h,
    (length (chromaHistory h) <= fuel + maxChunks)%nat ->
    (length (chromaHistory (evictLoop fuel h)) <= maxChunks)%nat.
Proof.
  induction fuel as [|fuel IH]; intros h Hlen; [exact Hlen|].
  rewrite evictLoop_step.
  destruct (Nat.ltb_spec maxChunks (length (chromaHistory h))) as [Hgt|Hle];
    [|exact Hle].
  apply IH. unfold shiftAll, shift. simpl. rewrite length_tl. lia.
Qed.

Lemma tl_snoc {A : Type} (l : list A) (x : A) :
  l <> [] -> tl (l ++ [x]) = tl l ++ [x].
Proof. destruct l; [congruence|reflexivity]. Qed.

Lemma length_pos_nonempty {A : Type} (l : list A) :
  (0 < length l)%nat -> l <> [].
Proof. destruct l; simpl; [lia|discriminate]. Qed.

Lemma shiftAll_pushFrames (frames : FrameBuffer) (h : Histories) :
  Aligned h -> (0 < length (chromaHistory h))%nat ->
  shiftAll (pushFrames frames h) = pushFrames frames (shiftAll h).
Proof.
  intros (H1 & H2 & H3 & H4 & H5 & H6) Hpos.
  unfold shiftAll, pushFrames, shift, push. simpl.
  rewrite !tl_snoc by (apply length_pos_nonempty; lia). reflexivity.
Qed.

Lemma accumulateFrames_below_cap (frames : FrameBuffer) (h : Histories) :
  nFrames frames <> 0 -> (length (chromaHistory h) < maxChunks)%nat ->
  accumulateFrames frames h = pushFrames frames h.
Proof.
  intros Hn Hlt. unfold accumulateFrames.
  destruct (Z.eqb_spec (nFrames frames) 0); [contradiction|].
  cbv zeta.
  assert (Hlen : length (chromaHistory (pushFrames frames h))
                 = S (length (chromaHistory h)))
    by (unfold pushFrames, push; simpl; apply last_length).
  rewrite Hlen, evictLoop_step, Hlen.
  destruct (Nat.ltb_spec maxChunks (S (length (chromaHistory h)))); [lia|reflexivity].
Qed.

Lemma accumulateFrames_at_cap (frames : FrameBuffer) (h : Histories) :
  Aligned h -> nFrames frames <> 0 -> length (chromaHistory h) = maxChunks ->
  accumulateFrames frames h = pushFrames frames (shiftAll h).
Proof.
  intros Hal Hn Hcap. unfold accumulateFrames.
  destruct (Z.eqb_spec (nFrames frames) 0); [contradiction|].
  cbv zeta.
  assert (Hpos : (0 < length (chromaHistory h))%nat)
    by (rewrite Hcap; unfold maxChunks; lia).
  assert (Hlen : length (chromaHistory (pushFrames frames h))
                 = S (length (chromaHistory h)))
    by (unfold pushFrames, push; simpl; apply last_length).
  rewrite Hlen, evictLoop_step, Hlen.
  destruct (Nat.ltb_spec maxChunks (S (length (chromaHistory h)))); [|lia].
  rewrite (shiftAll_pushFrames frames h Hal Hpos).
  destruct (length (chromaHistory h)) as [|fuel] eqn:Efuel; [lia|].
  rewrite evictLoop_step.
  assert (Hlen' : length (chromaHistory (pushFrames frames (shiftAll h))) = S fuel).
  { unfold pushFrames, push, shiftAll, shift. simpl.
    rewrite last_length, length_tl. lia. }
  rewrite Hlen'.
  destruct (Nat.ltb_spec maxChunks (S fuel)); [lia|reflexivity].
Qed.

Lemma accumulateFrames_capped (frames : FrameBuffer) (h : Histories) :
  Capped h -> Capped (accumulateFrames frames h).
Proof.
  intros [Hal Hle]. unfold accumulateFrames.
  destruct (nFrames frames =? 0); [split; assumption|].
  cbv zeta. split.
  - apply evictLoop_aligned, pushFrames_aligned, Hal.
  - apply evictLoop_exits. lia.
Qed.

Lemma clearHistories_capped : Capped clearHistories.
Proof.
  unfold Capped, Aligned, clearHistories. simpl. repeat split; lia.
Qed.

Lemma runCall_capped (s : State) (c : Call) :
  Capped (histories s) -> Capped (histories (runCall s c)).
Proof.
  intros Hc. destruct c; simpl.
  - apply accumulateFrames_capped, Hc.
  - apply clearHistories_capped.
  - apply clearHistories_capped.
Qed.

Lemma runCalls_capped (calls : list Call) :
  forall s, Capped (histories s) -> Capped (histories (runCalls calls s)).
Proof.
  unfold runCalls.
  induction calls as [|c calls IH]; intros s Hc; simpl; [exact Hc|].
  apply IH, runCall_capped, Hc.
Qed.

(** C4: after any sequence of [accumulateFrames], [reset] and [reinit] calls
    on a fresh composable, the seven history arrays have the same length and
    that length is at most 300; a further [accumulateFrames] of a non-empty
    buffer appends one chunk to every array and, when the arrays already hold
    300 chunks, drops exactly the oldest chunk of each. *)
Theorem histories_aligned_and_capped :
  forall (calls : list Call) (frames : FrameBuffer),
    let h := histories (runCalls calls initialState) in
    Aligned h
    /\ (length (chromaHistory h) <= 300)%nat
    /\ (nFrames frames <> 0 -> (length (chromaHistory h) < 300)%nat ->
        accumulateFrames frames h = pushFrames frames h)
    /\ (nFrames frames <> 0 -> length (chromaHistory h) = 300%nat ->
        accumulateFrames frames h = pushFrames frames (shiftAll h)).
Proof.
  intros calls frames h.
  destruct (runCalls_capped calls initialState clearHistories_capped) as [Hal Hle].
  fold h in Hal, Hle.
  split; [exact Hal|]. split; [exact Hle|]. split.
  - intros Hn Hlt. apply accumulateFrames_below_cap; assumption.
  - intros Hn Hcap. apply accumulateFrames_at_cap; assumption.
Qed.

Lemma histories_aligned_and_capped_witness :
  accumulateFrames (oneFrame 2)
    (histories (runCalls (repeat (CallAccumulateFrames (oneFrame 1)) 300) initialState))
  = pushFrames (oneFrame 2)
      (shiftAll
         (histories
            (runCalls (repeat (CallAccumulateFrames (oneFrame 1)) 300) initialState))).
Proof.
  apply (proj2 (proj2 (proj2
           (histories_aligned_and_capped
              (repeat (CallAccumulateFrames (oneFrame 1)) 300) (oneFrame 2))))).
  - vm_compute. discriminate.
  - vm_compute. reflexivity.
Defined.

(** C5: when the native estimate has [updated = false], [updateEstimate]
    leaves the published estimate as it is; hence the published estimate
    differs after the call only if [updated = true]. *)
Theorem updateEstimate_only_when_updated :
  forall (Math_round : float -> float)
         (progressiveEstimate : ProgressiveEstimate) (published : StreamEstimate),
    (updated progressiveEstimate = false ->
     updateEstimate Math_round progressiveEstimate published = published)
    /\ (updateEstimate Math_round progressiveEstimate published <> published ->
        updated progressiveEstimate = true).
Proof.
  intros Math_round progressiveEstimate published.
  unfold updateEstimate. split.
  - intros ->. reflexivity.
  - destruct (updated progressiveEstimate); simpl; [reflexivity|].
    intros Hne. exfalso. apply Hne. reflexivity.
Qed.

Lemma updateEstimate_only_when_updated_witness :
  updateEstimate (fun x => x) (idleEstimate false) initialEstimate = initialEstimate
  /\ updated (idleEstimate true) = true.
Proof.
  split.
  - apply (proj1 (updateEstimate_only_when_updated
                    (fun x => x) (idleEstimate false) initialEstimate)).
    reflexivity.
  - apply (proj2 (updateEstimate_only_when_updated
                    (fun x => x) (idleEstimate true) initialEstimate)).
    vm_compute. discriminate.
Defined.

(** *** Names *)

Lemma distinctStrings_NoDup (l : list string) :
  distinctStrings l = true -> NoDup l.
Proof.
  induction l as [|x l IH]; simpl; intros H; [constructor|].
  apply andb_true_iff in H. destruct H as [Hx Hl].
  constructor; [|apply IH, Hl].
  intros Hin. apply negb_true_iff in Hx.
  assert (Hex : existsb (String.eqb x) l = true)
    by (apply existsb_exists; exists x; split; [exact Hin|apply String.eqb_refl]).
  congruence.
Qed.

Lemma NoDup_map_injective {A B : Type} (f : A -> B) (l : list A) :
  NoDup (map f l) ->
  forall x y, In x l -> In y l -> f x = f y -> x = y.
Proof.
  induction l as [|a l IH]; simpl; intros Hnd x y Hx Hy Heq; [contradiction|].
  inversion Hnd as [|? ? Hnotin Hnd']; subst.
  destruct Hx as [<-|Hx], Hy as [<-|Hy]; auto.
  - exfalso. apply Hnotin. rewrite Heq. apply in_map, Hy.
  - exfalso. apply Hnotin. rewrite <- Heq. apply in_map, Hx.
Qed.

Lemma in_validChords (r q : Z) :
  0 <= r < 12 -> 0 <= q < 9 -> In (r, q) validChords.
Proof.
  intros Hr Hq. unfold validChords. apply in_prod; apply in_map_iff.
  - exists (Z.to_nat r). split; [lia|]. apply in_seq. lia.
  - exists (Z.to_nat q). split; [lia|]. apply in_seq. lia.
Qed.

(** X6: two different chords, each of a pitch class 0..11 and a quality
    0..8, have different names. *)
Theorem chordToName_injective :
  forall r q r' q' : Z,
    0 <= r < 12 -> 0 <= q < 9 -> 0 <= r' < 12 -> 0 <= q' < 9 ->
    (r, q) <> (r', q') ->
    chordToName r q <> chordToName r' q'.
Proof.
  intros r q r' q' Hr Hq Hr' Hq' Hne Heq. apply Hne.
  assert (Hnd : NoDup (map (fun rq => chordToName (fst rq) (snd rq)) validChords))
    by (apply distinctStrings_NoDup; vm_compute; reflexivity).
  exact (NoDup_map_injective _ _ Hnd (r, q) (r', q')
           (in_validChords r q Hr Hq) (in_validChords r' q' Hr' Hq') Heq).
Qed.

Lemma chordToName_injective_witness :
  chordToName 0 1 <> chordToName 0 6.
Proof.
  apply (chordToName_injective 0 1 0 6); try lia. discriminate.
Defined.

Lemma index_out_of_range (a : list string) (i : Z) :
  i < 0 \/ Z.of_nat (length a) <= i -> index a i = None.
Proof.
  intros H. unfold index.
  destruct (Z.ltb_spec i 0); [reflexivity|].
  apply nth_error_None. lia.
Qed.

(** X7: a root outside 0..11 is named "-" whatever the quality, and a
    quality outside 0..8 adds no suffix: the chord is named like the major
    chord on its root. *)
Theorem chordToName_out_of_range :
  forall r q : Z,
    (r < 0 \/ 11 < r -> chordToName r q = "-"%string)
    /\ (q < 0 \/ 8 < q -> chordToName r q = chordToName r 0).
Proof.
  intros r q. unfold chordToName. split.
  - intros [H|H].
    + destruct (Z.ltb_spec r 0); [reflexivity|lia].
    + destruct (Z.ltb_spec r 0); [reflexivity|].
      destruct (Z.ltb_spec 11 r); [reflexivity|lia].
  - intros H.
    rewrite (index_out_of_range CHORD_QUALITY_NAMES q) by (simpl; lia).
    reflexivity.
Qed.

Lemma chordToName_out_of_range_witness :
  chordToName (-1) 4 = "-"%string /\ chordToName 2 9 = chordToName 2 0.
Proof.
  split.
  - apply (proj1 (chordToName_out_of_range (-1) 4)). lia.
  - apply (proj2 (chordToName_out_of_range 2 9)). lia.
Defined.

Lemma small_cases (j : Z) :
  0 <= j < 12 ->
  j = 0 \/ j = 1 \/ j = 2 \/ j = 3 \/ j = 4 \/ j = 5 \/ j = 6 \/ j = 7
  \/ j = 8 \/ j = 9 \/ j = 10 \/ j = 11.
Proof. lia. Qed.

(** X8: for a key index that is not negative, the key name is the name of
    the major or minor chord on that index taken modulo 12. *)
Theorem keyToName_is_chord_name :
  forall (keyIndex : Z) (isMinor : bool),
    0 <= keyIndex ->
    keyToName keyIndex isMinor
    = chordToName (keyIndex mod 12) (if isMinor then 1 else 0).
Proof.
  intros keyIndex isMinor Hk. unfold keyToName.
  rewrite Z.rem_mod_nonneg by lia.
  pose proof (Z.mod_pos_bound keyIndex 12 ltac:(lia)) as Hb.
  destruct (small_cases _ Hb) as
    [->|[->|[->|[->|[->|[->|[->|[->|[->|[->|[->| ->]]]]]]]]]]];
    destruct isMinor; reflexivity.
Qed.

Lemma keyToName_is_chord_name_witness :
  keyToName 21 true = chordToName (21 mod 12) 1.
Proof. apply (keyToName_is_chord_name 21 true). lia. Defined.

Lemma keyToName_not_dash (keyIndex : Z) (isMinor : bool) :
  keyToName keyIndex isMinor <> "-"%string.
Proof.
  unfold keyToName, index.
  destruct (Z.ltb_spec (Z.rem keyIndex 12) 0) as [Hneg|Hpos].
  - destruct isMinor; discriminate.
  - assert (Hb : 0 <= Z.rem keyIndex 12 < 12)
      by (Z.to_euclidean_division_equations; lia).
    destruct (small_cases _ Hb) as
      [->|[->|[->|[->|[->|[->|[->|[->|[->|[->|[->| ->]]]]]]]]]]];
      destruct isMinor; discriminate.
Qed.

Lemma chordToName_dash (r q : Z) :
  chordToName r q = "-"%string <-> r < 0 \/ 11 < r.
Proof.
  split.
  2:{ unfold chordToName. intros [H|H].
      - destruct (Z.ltb_spec r 0); [reflexivity|lia].
      - destruct (Z.ltb_spec r 0); [reflexivity|].
        destruct (Z.ltb_spec 11 r); [reflexivity|lia]. }
  unfold chordToName.
  destruct (Z.ltb_spec r 0); [auto|].
  destruct (Z.ltb_spec 11 r); [auto|]. simpl.
  assert (Hb : 0 <= r < 12) by lia.
  destruct (small_cases _ Hb) as
    [->|[->|[->|[->|[->|[->|[->|[->|[->|[->|[->| ->]]]]]]]]]]];
    simpl; discriminate.
Qed.

(** X9: after an update, the published key is "-" exactly when the key
    confidence is not above 0.3, and the published chord is "-" exactly when
    the chord confidence is not above 0.3 or the chord root is outside
    0..11. *)
Theorem published_names_hidden_when_unsure :
  forall (Math_round : float -> float)
         (progressiveEstimate : ProgressiveEstimate) (published : StreamEstimate),
    updated progressiveEstimate = true ->
    (se_key (updateEstimate Math_round progressiveEstimate published) = "-"%string
     <-> PrimFloat.ltb 0.3%float (pe_keyConfidence progressiveEstimate) = false)
    /\ (se_chord (updateEstimate Math_round progressiveEstimate published) = "-"%string
        <-> PrimFloat.ltb 0.3%float (pe_chordConfidence progressiveEstimate) = false
            \/ pe_chordRoot progressiveEstimate < 0
            \/ 11 < pe_chordRoot progressiveEstimate).
Proof.
  intros Math_round progressiveEstimate published Hup.
  unfold updateEstimate. rewrite Hup. simpl. split.
  - destruct (PrimFloat.ltb 0.3%float (pe_keyConfidence progressiveEstimate)).
    + split; [|discriminate]. intros H. exfalso.
      exact (keyToName_not_dash _ _ H).
    + split; reflexivity.
  - destruct (PrimFloat.ltb 0.3%float (pe_chordConfidence progressiveEstimate)).
    + rewrite chordToName_dash. split; [auto|].
      intros [H|H]; [discriminate|exact H].
    + split; auto.
Qed.

Lemma published_names_hidden_when_unsure_witness :
  se_key (updateEstimate (fun x => x) (idleEstimate true) initialEstimate)
  = "-"%string.
Proof.
  apply (proj1 (published_names_hidden_when_unsure
                  (fun x => x) (idleEstimate true) initialEstimate eq_refl)).
  vm_compute. reflexivity.
Defined.

(** *** What the histories hold *)

Lemma dropOldest_zero (h : Histories) : dropOldest 0 h = h.
Proof. destruct h. reflexivity. Qed.

Lemma dropOldest_shiftAll (k : nat) (h : Histories) :
  dropOldest k (shiftAll h) = dropOldest (S k) h.
Proof.
  assert (Htl : forall (A : Type) (l : list A), skipn k (tl l) = skipn (S k) l).
  { intros A [|x l]; [rewrite !skipn_nil|]; reflexivity. }
  unfold dropOldest, shiftAll, shift. simpl tl. cbn [chromaHistory rmsHistory
    melHistory timestampHistory spectralCentroidHistory spectralFlatnessHistory
    onsetStrengthHistory].
  rewrite !Htl. reflexivity.
Qed.

Lemma evictLoop_drops (fuel : nat) :
  forall h,
    evictLoop fuel h
    = dropOldest (Nat.min fuel (length (chromaHistory h) - maxChunks)) h.
Proof.
  induction fuel as [|fuel IH]; intros h.
  - simpl. symmetry. apply dropOldest_zero.
  - rewrite evictLoop_step.
    destruct (Nat.ltb_spec maxChunks (length (chromaHistory h))) as [Hgt|Hle].
    + rewrite IH, dropOldest_shiftAll. f_equal.
      unfold shiftAll, shift. cbn [chromaHistory]. rewrite length_tl. lia.
    + replace (length (chromaHistory h) - maxChunks)%nat with 0%nat by lia.
      rewrite Nat.min_0_r. symmetry. apply dropOldest_zero.
Qed.

Lemma accumulateFrames_drops (frames : FrameBuffer) (h : Histories) :
  nFrames frames <> 0 ->
  accumulateFrames frames h
  = dropOldest (length (chromaHistory h) + 1 - maxChunks) (pushFrames frames h).
Proof.
  intros Hn. unfold accumulateFrames.
  destruct (Z.eqb_spec (nFrames frames) 0); [contradiction|].
  cbv zeta. rewrite evictLoop_drops. f_equal.
  unfold pushFrames, push. cbn [chromaHistory]. rewrite last_length. lia.
Qed.

(** X10: whatever the histories hold, [accumulateFrames] of a non-empty
    buffer appends one chunk to each array and then drops from every array as
    many of its oldest chunks as [chromaHistory] exceeds 300 by; what is left
    of [chromaHistory] is its last 300 chunks. *)
Theorem accumulateFrames_keeps_recent :
  forall (frames : FrameBuffer) (h : Histories),
    nFrames frames <> 0 ->
    accumulateFrames frames h
    = dropOldest (length (chromaHistory h) + 1 - 300) (pushFrames frames h)
    /\ chromaHistory (accumulateFrames frames h)
       = Progression.slice_last 300 (chromaHistory h ++ [chroma frames]).
Proof.
  intros frames h Hn.
  pose proof (accumulateFrames_drops frames h Hn) as Hacc.
  split; [exact Hacc|].
  rewrite Hacc. unfold dropOldest, pushFrames, push, Progression.slice_last.
  cbn [chromaHistory]. rewrite last_length. f_equal. unfold maxChunks. lia.
Qed.

Lemma accumulateFrames_keeps_recent_witness :
  chromaHistory
    (accumulateFrames (oneFrame 2)
       (mkHistories [[1%float]; [2%float]] [] [] [] [] [] []))
  = Progression.slice_last 300 ([[1%float]; [2%float]] ++ [chroma (oneFrame 2)]).
Proof.
  refine (proj2 (accumulateFrames_keeps_recent (oneFrame 2)
                   (mkHistories [[1%float]; [2%float]] [] [] [] [] [] []) _)).
  vm_compute. discriminate.
Defined.

Lemma pushFrames_collect (frames : FrameBuffer) (buffers : list FrameBuffer) :
  pushFrames frames (collect buffers) = collect (buffers ++ [frames]).
Proof. unfold pushFrames, collect, push. simpl. rewrite !map_app. reflexivity. Qed.

Lemma dropOldest_collect (k : nat) (buffers : list FrameBuffer) :
  dropOldest k (collect buffers) = collect (skipn k buffers).
Proof. unfold dropOldest, collect. simpl. rewrite !skipn_map. reflexivity. Qed.

Lemma slice_last_snoc {A : Type} (n : nat) (l : list A) (x : A) :
  skipn (length (Progression.slice_last n l) + 1 - n)
        (Progression.slice_last n l ++ [x])
  = Progression.slice_last n (l ++ [x]).
Proof.
  unfold Progression.slice_last.
  rewrite length_skipn, last_length.
  replace (skipn (length l - n) l ++ [x])
    with (skipn (length l - n) (l ++ [x])).
  - rewrite skipn_skipn. f_equal. lia.
  - rewrite skipn_app.
    replace (length l - n - length l)%nat with 0%nat by lia. reflexivity.
Qed.

Lemma histories_after_buffers (buffers : list FrameBuffer) :
  histories (runCalls (map CallAccumulateFrames buffers) initialState)
  = collect (Progression.slice_last 300 (filter hasFrames buffers)).
Proof.
  induction buffers as [|frames buffers IH] using rev_ind.
  - reflexivity.
  - unfold runCalls in *. rewrite map_app, fold_left_app. simpl.
    rewrite IH, filter_app. cbn [filter].
    assert (Hb : hasFrames frames = negb (nFrames frames =? 0)) by reflexivity.
    rewrite Hb.
    destruct (Z.eqb_spec (nFrames frames) 0) as [H0|Hn]; cbn [negb].
    + rewrite app_nil_r. unfold accumulateFrames. rewrite H0. reflexivity.
    + rewrite (accumulateFrames_drops frames _ Hn).
      rewrite pushFrames_collect, dropOldest_collect. f_equal.
      unfold collect at 1. cbn [chromaHistory]. rewrite length_map.
      apply slice_last_snoc.
Qed.



(** *** Flattening *)

Lemma store_middle (P Q : Float32Array) (x v : float) :
  store (P ++ x :: Q) (length P) v = P ++ v :: Q.
Proof. induction P as [|y P IH]; simpl; [reflexivity|]. f_equal. exact IH. Qed.

Lemma store_run (g : nat -> float) (P : Float32Array) (base : nat) :
  length P = base ->
  forall w k,
    (w <= k)%nat ->
    fold_left (fun flat c => store flat (base + c) (g c)) (seq 0 w)
              (P ++ repeat 0%float k)
    = P ++ map g (seq 0 w) ++ repeat 0%float (k - w).
Proof.
  intros <- w. induction w as [|w IH]; intros k Hk.
  - simpl. rewrite Nat.sub_0_r. reflexivity.
  - rewrite seq_S, fold_left_app, IH by lia. simpl.
    replace (k - w)%nat with (S (k - S w)) by lia.
    rewrite map_app. simpl. rewrite app_assoc.
    replace (length P + w)%nat with (length (P ++ map g (seq 0 w)))
      by (rewrite length_app, length_map, length_seq; reflexivity).
    rewrite store_middle, <- !app_assoc. reflexivity.
Qed.

Lemma copyRow_spec (width : nat) (chunk P : Float32Array) (off f k : nat) :
  length P = ((off + f) * width)%nat -> (width <= k)%nat ->
  copyRow width chunk off f (P ++ repeat 0%float k)
  = P ++ map (fun c => loadOrZero chunk (f * width + c)) (seq 0 width)
      ++ repeat 0%float (k - width).
Proof.
  intros HP Hk. unfold copyRow.
  exact (store_run (fun c => loadOrZero chunk (f * width + c)) P _ HP width k Hk).
Qed.

Lemma map_seq_from (g : nat -> float) (a w : nat) :
  map g (seq a w) = map (fun c => g (a + c)%nat) (seq 0 w).
Proof.
  induction w as [|w IH]; [reflexivity|].
  rewrite !seq_S, !map_app, IH. reflexivity.
Qed.

Lemma rows_are_a_run (g : nat -> float) (w n : nat) :
  flat_map (fun f => map (fun c => g (f * w + c)%nat) (seq 0 w)) (seq 0 n)
  = map g (seq 0 (n * w)).
Proof.
  induction n as [|n IH]; [reflexivity|].
  rewrite seq_S, flat_map_app, IH. simpl flat_map. rewrite app_nil_r.
  replace (S n * w)%nat with (n * w + w)%nat by lia.
  rewrite seq_app, map_app. f_equal.
  rewrite (map_seq_from g). reflexivity.
Qed.

Lemma loads_are_the_chunk (chunk : Float32Array) :
  map (loadOrZero chunk) (seq 0 (length chunk)) = map orZero chunk.
Proof.
  induction chunk as [|x chunk IH]; [reflexivity|].
  simpl length. simpl seq. simpl map. f_equal.
  rewrite <- seq_shift, map_map. exact IH.
Qed.

Lemma copyInterleaved_spec (width : nat) (chunk P : Float32Array) (off n k : nat) :
  length P = (off * width)%nat -> length chunk = (n * width)%nat ->
  (n * width <= k)%nat ->
  copyInterleaved width (Some chunk) off n (P ++ repeat 0%float k)
  = Normal (P ++ map orZero chunk ++ repeat 0%float (k - n * width)).
Proof.
  intros HP Hchunk Hk. unfold copyInterleaved. f_equal.
  rewrite <- loads_are_the_chunk, Hchunk, <- rows_are_a_run.
  clear Hchunk. induction n as [|n IH].
  - simpl. rewrite Nat.sub_0_r. reflexivity.
  - rewrite Nat.mul_succ_l in Hk.
    rewrite seq_S, fold_left_app, IH by lia. simpl fold_left.
    rewrite app_assoc, copyRow_spec.
    + rewrite flat_map_app. simpl flat_map.
      rewrite app_nil_r, <- !app_assoc. do 3 f_equal.
      rewrite Nat.mul_succ_l. f_equal. lia.
    + rewrite length_app, HP.
      rewrite (flat_map_constant_length (c := width)).
      * rewrite length_seq. lia.
      * intros x _. rewrite length_map, length_seq. reflexivity.
    + lia.
Qed.

Lemma skipn_repeat (x : float) (a k : nat) :
  skipn a (repeat x k) = repeat x (k - a).
Proof.
  revert a. induction k as [|k IH]; intros [|a]; simpl; auto.
Qed.

Lemma typedSet_spec (P src : Float32Array) (k : nat) :
  (length src <= k)%nat ->
  typedSet (P ++ repeat 0%float k) (Some src) (length P)
  = Normal (P ++ src ++ repeat 0%float (k - length src)).
Proof.
  intros Hk. unfold typedSet.
  rewrite length_app, repeat_length.
  destruct (Nat.leb_spec (length P + length src) (length P + k)); [|lia].
  f_equal.
  rewrite firstn_app, Nat.sub_diag, firstn_all. simpl. rewrite app_nil_r.
  f_equal. f_equal.
  rewrite skipn_app, skipn_all2 by lia. simpl.
  replace (length P + length src - length P)%nat with (length src) by lia.
  apply skipn_repeat.
Qed.

Lemma typedSet_at (P src : Float32Array) (off k : nat) :
  length P = off -> (length src <= k)%nat ->
  typedSet (P ++ repeat 0%float k) (Some src) off
  = Normal (P ++ src ++ repeat 0%float (k - length src)).
Proof. intros <-. apply typedSet_spec. Qed.

Lemma flat_map_snoc {A B : Type} (g : A -> list B) (l : list A) (x : A) :
  flat_map g (l ++ [x]) = flat_map g l ++ g x.
Proof. rewrite flat_map_app. simpl. rewrite app_nil_r. reflexivity. Qed.

Lemma nth_error_map_middle {A B : Type} (g : A -> B) (l r : list A) (x : A) :
  nth_error (map g (l ++ x :: r)) (length l) = Some (g x).
Proof.
  rewrite nth_error_map, nth_error_app2, Nat.sub_diag by lia. reflexivity.
Qed.

Lemma framesOf_cons (frames : FrameBuffer) (rest : list FrameBuffer) :
  framesOf (frames :: rest) = (length (rmsEnergy frames) + framesOf rest)%nat.
Proof. unfold framesOf. simpl. apply length_app. Qed.

Lemma framesOf_snoc (done : list FrameBuffer) (frames : FrameBuffer) :
  framesOf (done ++ [frames]) = (framesOf done + length (rmsEnergy frames))%nat.
Proof. unfold framesOf. rewrite flat_map_snoc. apply length_app. Qed.

Lemma sized_lengths (nMels : nat) (done : list FrameBuffer) :
  Forall (WellSized nMels) done ->
  length (flat_map timestamps done) = framesOf done
  /\ length (flat_map spectralCentroid done) = framesOf done
  /\ length (flat_map spectralFlatness done) = framesOf done
  /\ length (flat_map onsetStrength done) = framesOf done
  /\ length (flat_map chroma done) = (framesOf done * 12)%nat
  /\ length (flat_map mel done) = (framesOf done * nMels)%nat.
Proof.
  induction 1 as [|f done (H1 & H2 & H3 & H4 & H5 & H6) _
                     (I1 & I2 & I3 & I4 & I5 & I6)].
  - repeat split; reflexivity.
  - rewrite framesOf_cons. simpl flat_map. rewrite !length_app.
    rewrite H1, H2, H3, H4, H5, H6, I1, I2, I3, I4, I5, I6.
    rewrite !Nat.mul_add_distr_r. repeat split; reflexivity.
Qed.

Lemma flattenChunk_step (nMels : nat) (done rest : list FrameBuffer)
    (frames : FrameBuffer) :
  Forall (WellSized nMels) done -> WellSized nMels frames ->
  flattenChunk nMels (collect (done ++ frames :: rest))
    (partialFlat nMels done (frames :: rest)) (length done)
  = Normal (partialFlat nMels (done ++ [frames]) rest).
Proof.
  intros Hdone (H1 & H2 & H3 & H4 & H5 & H6).
  destruct (sized_lengths nMels done Hdone) as (I1 & I2 & I3 & I4 & I5 & I6).
  unfold flattenChunk, collect, partialFlat.
  cbn [rmsHistory timestampHistory spectralCentroidHistory spectralFlatnessHistory
       onsetStrengthHistory chromaHistory melHistory flatRms flatTimestamps
       flatSpectralCentroid flatSpectralFlatness flatOnsetStrength flatChroma
       flatMel frameOffset].
  rewrite !nth_error_map_middle, framesOf_cons.
  rewrite (typedSet_at (flat_map rmsEnergy done)) by (reflexivity || lia).
  cbn [andThen].
  rewrite (typedSet_at (flat_map timestamps done)) by (assumption || lia).
  cbn [andThen].
  rewrite (typedSet_at (flat_map spectralCentroid done)) by (assumption || lia).
  cbn [andThen].
  rewrite (typedSet_at (flat_map spectralFlatness done)) by (assumption || lia).
  cbn [andThen].
  rewrite (typedSet_at (flat_map onsetStrength done)) by (assumption || lia).
  cbn [andThen].
  unfold nChroma.
  rewrite (copyInterleaved_spec 12 (chroma frames)
             (map orZero (flat_map chroma done)))
    by (rewrite ?length_map; assumption || lia).
  cbn [andThen].
  rewrite (copyInterleaved_spec nMels (mel frames)
             (map orZero (flat_map mel done)))
    by (rewrite ?length_map, ?Nat.mul_add_distr_r; assumption || lia).
  cbn [andThen].
  rewrite !flat_map_snoc, !map_app, framesOf_snoc, <- !app_assoc.
  rewrite H1, H2, H3, H4.
  rewrite !Nat.mul_add_distr_r.
  repeat match goal with
         | |- context [(?a + ?b - ?a)%nat] =>
             replace (a + b - a)%nat with b by lia
         end.
  reflexivity.
Qed.

Lemma flatten_loop (nMels : nat) :
  forall (mid done tail : list FrameBuffer),
    Forall (WellSized nMels) done -> Forall (WellSized nMels) mid ->
    forEach (flattenChunk nMels (collect (done ++ mid ++ tail)))
            (seq (length done) (length mid)) (partialFlat nMels done (mid ++ tail))
    = Normal (partialFlat nMels (done ++ mid) tail).
Proof.
  induction mid as [|frames mid IH]; intros done tail Hdone Hmid.
  - simpl. rewrite app_nil_r. reflexivity.
  - inversion Hmid as [|? ? Hframes Hmid']; subst.
    simpl length. simpl seq. cbn [forEach].
    change ((frames :: mid) ++ tail) with (frames :: mid ++ tail).
    rewrite flattenChunk_step by assumption.
    replace (done ++ frames :: mid ++ tail) with ((done ++ [frames]) ++ mid ++ tail)
      by (rewrite <- app_assoc; reflexivity).
    replace (done ++ frames :: mid) with ((done ++ [frames]) ++ mid)
      by (rewrite <- app_assoc; reflexivity).
    replace (S (length done)) with (length (done ++ [frames]))
      by (rewrite last_length; reflexivity).
    apply IH; [|assumption].
    apply Forall_app. split; [assumption|]. constructor; [assumption|constructor].
Qed.

Lemma countFrames_collect (buffers : list FrameBuffer) :
  countFrames (collect buffers) = framesOf buffers.
Proof.
  unfold countFrames, collect, framesOf. cbn [rmsHistory].
  assert (H : forall n, fold_left (fun t chunk => (t + length chunk)%nat)
                          (map rmsEnergy buffers) n
                        = (n + length (flat_map rmsEnergy buffers))%nat).
  { induction buffers as [|f buffers IH]; intros n; simpl.
    - lia.
    - rewrite IH, length_app. lia. }
  apply H.
Qed.

Lemma updateStreamingData_collect (nMels : nat) (buffers : list FrameBuffer)
    (streamingData : StreamingData) :
  Forall (WellSized nMels) buffers ->
  updateStreamingData nMels (collect buffers) streamingData
  = Normal (if (framesOf buffers =? 0)%nat then streamingData
            else flattened nMels buffers).
Proof.
  intros Hsized.
  unfold updateStreamingData. rewrite countFrames_collect.
  destruct (framesOf buffers =? 0)%nat; [reflexivity|].
  pose proof (flatten_loop nMels buffers [] [] (Forall_nil _) Hsized) as Hloop.
  rewrite app_nil_r in Hloop. simpl app in Hloop. simpl length in Hloop.
  cbv zeta.
  match goal with
  | |- andThen ?loop _ = _ =>
      replace loop with (Normal (partialFlat nMels buffers []))
  end.
  - unfold partialFlat, flattened, framesOf. simpl. rewrite !app_nil_r.
    reflexivity.
  - symmetry. unfold collect at 2. cbn [rmsHistory]. rewrite length_map.
    exact Hloop.
Qed.

(** X12: when the histories hold the arrays of buffers whose arrays have
    matching sizes, [updateStreamingData] ends normally: with no frame at all
    it leaves [streamingData] as it is, otherwise it publishes the arrays of
    the buffers laid end to end (chroma and mel values that are NaN or zero
    published as 0) with their total number of frames, 12 chroma and
    [nMels] mel values per frame. *)
Theorem flatten_is_concatenation :
  forall (nMels : nat) (buffers : list FrameBuffer) (streamingData : StreamingData),
    Forall (WellSized nMels) buffers ->
    updateStreamingData nMels (collect buffers) streamingData
    = Normal (if (framesOf buffers =? 0)%nat then streamingData
              else flattened nMels buffers)
    /\ length (sd_chroma (flattened nMels buffers))
       = (sd_nFrames (flattened nMels buffers) * 12)%nat
    /\ length (sd_mel (flattened nMels buffers))
       = (sd_nFrames (flattened nMels buffers) * nMels)%nat
    /\ length (sd_timestamps (flattened nMels buffers))
       = sd_nFrames (flattened nMels buffers).
Proof.
  intros nMels buffers streamingData Hsized.
  split; [apply updateStreamingData_collect; exact Hsized|].
  destruct (sized_lengths nMels buffers Hsized) as (I1 & _ & _ & _ & I5 & I6).
  unfold flattened. cbn [sd_chroma sd_mel sd_timestamps sd_nFrames].
  rewrite !length_map. auto.
Qed.

Lemma flatten_is_concatenation_witness :
  updateStreamingData 0 (collect [sizedFrame 1; sizedFrame nan])
    (emptyStreamingData 0)
  = Normal (if (framesOf [sizedFrame 1; sizedFrame nan] =? 0)%nat
            then emptyStreamingData 0
            else flattened 0 [sizedFrame 1; sizedFrame nan]).
Proof.
  refine (proj1 (flatten_is_concatenation 0 [sizedFrame 1; sizedFrame nan]
                   (emptyStreamingData 0) _)).
  repeat constructor.
Defined.

Lemma Forall_filter {A : Type} (P : A -> Prop) (f : A -> bool) (l : list A) :
  Forall P l -> Forall P (filter f l).
Proof.
  intros H. apply Forall_forall. intros x Hin.
  apply filter_In in Hin. exact (proj1 (Forall_forall _ _) H x (proj1 Hin)).
Qed.

Lemma Forall_slice_last {A : Type} (P : A -> Prop) (n : nat) (l : list A) :
  Forall P l -> Forall P (Progression.slice_last n l).
Proof.
  intros H. unfold Progression.slice_last.
  rewrite <- (firstn_skipn (length l - n) l) in H.
  apply Forall_app in H. apply H.
Qed.

(** X13: after buffers with arrays of matching sizes have been passed to
    [accumulateFrames] one after the other on a fresh composable,
    [updateStreamingData] ends normally and publishes the arrays of the last
    300 buffers that had frames, laid end to end. *)
Theorem streaming_view_of_recent_buffers :
  forall (nMels : nat) (buffers : list FrameBuffer) (streamingData : StreamingData),
    Forall (WellSized nMels) buffers ->
    updateStreamingData nMels
      (histories (runCalls (map CallAccumulateFrames buffers) initialState))
      streamingData
    = Normal
        (if (framesOf (Progression.slice_last 300 (filter hasFrames buffers)) =? 0)%nat
         then streamingData
         else flattened nMels
                (Progression.slice_last 300 (filter hasFrames buffers))).
Proof.
  intros nMels buffers streamingData Hsized.
  rewrite histories_after_buffers.
  apply updateStreamingData_collect, Forall_slice_last, Forall_filter, Hsized.
Qed.

Lemma forEach_app {S : Type} (body : S -> nat -> Completion S)
    (l1 l2 : list nat) (s : S) :
  forEach body (l1 ++ l2) s = andThen (forEach body l1 s) (forEach body l2).
Proof.
  revert s. induction l1 as [|i l1 IH]; intros s; simpl; [reflexivity|].
  destruct (body s i); [apply IH|reflexivity].
Qed.

Lemma streaming_view_of_recent_buffers_witness :
  updateStreamingData 0
    (histories
       (runCalls (map CallAccumulateFrames [sizedFrame 1; sizedFrame 2]) initialState))
    (emptyStreamingData 0)
  = Normal
      (if (framesOf (Progression.slice_last 300
                       (filter hasFrames [sizedFrame 1; sizedFrame 2])) =? 0)%nat
       then emptyStreamingData 0
       else flattened 0
              (Progression.slice_last 300
                 (filter hasFrames [sizedFrame 1; sizedFrame 2]))).
Proof.
  apply (streaming_view_of_recent_buffers 0 [sizedFrame 1; sizedFrame 2]).
  repeat constructor.
Defined.

(** X14: when the newest chunk has more timestamps than frames, while the
    chunks before it have matching sizes, [updateStreamingData] ends with a
    [RangeError] (from [flatTimestamps.set]) and publishes nothing. *)
Theorem flatten_rejects_long_timestamps :
  forall (nMels : nat) (done : list FrameBuffer) (frames : FrameBuffer)
         (streamingData : StreamingData),
    Forall (WellSized nMels) done ->
    framesOf (done ++ [frames]) <> 0%nat ->
    (length (rmsEnergy frames) < length (timestamps frames))%nat ->
    updateStreamingData nMels (collect (done ++ [frames])) streamingData
    = Abrupt RangeError.
Proof.
  intros nMels done frames streamingData Hdone Hframes Hlong.
  unfold updateStreamingData. rewrite countFrames_collect.
  destruct (Nat.eqb_spec (framesOf (done ++ [frames])) 0); [contradiction|].
  cbv zeta.
  match goal with
  | |- andThen ?loop _ = _ => replace loop with (@Abrupt Flat RangeError)
  end; [reflexivity|].
  symmetry. unfold collect at 2. cbn [rmsHistory].
  rewrite length_map, last_length, seq_S, forEach_app.
  pose proof (flatten_loop nMels done [] [frames] (Forall_nil _) Hdone) as Hloop.
  simpl app in Hloop. simpl length in Hloop.
  match goal with
  | |- andThen ?loop _ = _ =>
      replace loop with (Normal (partialFlat nMels done [frames]))
        by (symmetry; exact Hloop)
  end.
  cbn [andThen forEach Nat.add].
  destruct (sized_lengths nMels done Hdone) as (I1 & _).
  unfold flattenChunk, collect, partialFlat.
  cbn [rmsHistory timestampHistory flatRms flatTimestamps frameOffset].
  rewrite !nth_error_map_middle.
  rewrite (typedSet_at (flat_map rmsEnergy done))
    by (reflexivity || (rewrite framesOf_cons; lia)).
  cbn [andThen]. unfold typedSet.
  rewrite length_app, repeat_length, I1, framesOf_cons.
  change (framesOf []) with 0%nat.
  destruct (Nat.leb_spec (framesOf done + length (timestamps frames))
                         (framesOf done + (length (rmsEnergy frames) + 0)));
    [lia|reflexivity].
Qed.

Lemma flatten_rejects_long_timestamps_witness :
  updateStreamingData 0
    (collect ([sizedFrame 1]
              ++ [mkFrameBuffer 1 [2%float; 3%float] [] [] [] [0%float] [] []
                    [] [] []]))
    (emptyStreamingData 0)
  = Abrupt RangeError.
Proof.
  apply (flatten_rejects_long_timestamps 0 [sizedFrame 1]).
  - repeat constructor.
  - vm_compute. discriminate.
  - simpl. lia.
Defined.

(** *** One processing cycle *)

Section ProcessProofs.

Variable Math_round : float -> float.
Context {Analyzer : Type}.
Variable api : @AnalyzerApi Analyzer.

Lemma readAvailable_frame (n : Z) (a a' : Analyzer) (c c' : @Closure Analyzer)
    (r : Completion unit) :
  readAvailable api n a c = (r, a', c') ->
  c_isProcessing c' = c_isProcessing c
  /\ c_estimate c' = c_estimate c
  /\ (c_histories c' = c_histories c
      \/ exists frames a0,
           api_readFrames api n a = (Normal frames, a0)
           /\ 0 < n
           /\ c_histories c' = accumulateFrames frames (c_histories c)).
Proof.
  unfold readAvailable. intros H.
  destruct (Z.ltb_spec 0 n) as [Hpos|Hneg].
  - destruct (api_readFrames api n a) as [[frames|e] a0] eqn:Er.
    + cbv zeta in H.
      match type of H with
      | context [updateStreamingData ?m ?h ?d] =>
          destruct (updateStreamingData m h d)
      end; injection H as <- <- <-; cbn; (split; [reflexivity|]);
        (split; [reflexivity|]); right; exists frames, a0; auto.
    + injection H as <- <- <-. auto.
  - injection H as <- <- <-. auto.
Qed.

(** X15: without an analyzer, or before initialization, [process] returns
    at once and leaves everything as it is; otherwise [isProcessing] is false
    after a call that returns and true after a call that throws. *)
Theorem process_guard_and_flag :
  forall (samples : Float32Array) (c : @Closure Analyzer),
    (c_analyzer c = None \/ c_isInitialized c = false ->
     process Math_round api samples c = (Normal tt, c))
    /\ (c_analyzer c <> None -> c_isInitialized c = true ->
        c_isProcessing (snd (process Math_round api samples c))
        = match fst (process Math_round api samples c) with
          | Normal _ => false
          | Abrupt _ => true
          end).
Proof.
  intros samples c. split.
  - intros [Hnone|Hinit]; unfold process.
    + rewrite Hnone. reflexivity.
    + destruct (c_analyzer c); [|reflexivity]. rewrite Hinit. reflexivity.
  - intros Ha Hinit. unfold process.
    destruct (c_analyzer c) as [a|]; [|congruence].
    rewrite Hinit. cbn [negb]. cbv zeta.
    destruct (api_process api samples a) as [[u|e] a1]; [|reflexivity].
    destruct (api_availableFrames api a1) as [[n|e] a2]; [|reflexivity].
    destruct (readAvailable api n a2 (withProcessing true c))
      as [[[u'|e] a3] c2] eqn:Er;
      destruct (readAvailable_frame _ _ _ _ _ _ Er) as (Hp & _).
    + destruct (api_stats api a3) as [[est|e] a4]; cbn; [reflexivity|exact Hp].
    + cbn. exact Hp.
Qed.

(** X16: whatever the native analyzer returns or throws, a call of
    [process] keeps the seven histories of equal length and at most 300
    chunks long. *)
Theorem process_keeps_histories_capped :
  forall (samples : Float32Array) (c : @Closure Analyzer),
    Capped (c_histories c) ->
    Capped (c_histories (snd (process Math_round api samples c))).
Proof.
  intros samples c Hcap. unfold process.
  destruct (c_analyzer c) as [a|]; [|exact Hcap].
  destruct (negb (c_isInitialized c)); [exact Hcap|]. cbv zeta.
  destruct (api_process api samples a) as [[u|e] a1]; [|exact Hcap].
  destruct (api_availableFrames api a1) as [[n|e] a2]; [|exact Hcap].
  assert (Hc2 : forall r a3 c2,
             readAvailable api n a2 (withProcessing true c) = (r, a3, c2) ->
             Capped (c_histories c2)).
  { intros r a3 c2 Er.
    destruct (readAvailable_frame _ _ _ _ _ _ Er)
      as (_ & _ & [Hh|(frames & a0 & _ & _ & Hh)]); rewrite Hh; cbn.
    - exact Hcap.
    - apply accumulateFrames_capped, Hcap. }
  destruct (readAvailable api n a2 (withProcessing true c))
    as [[[u'|e] a3] c2] eqn:Er; specialize (Hc2 _ _ _ eq_refl).
  - destruct (api_stats api a3) as [[est|e] a4]; cbn; exact Hc2.
  - cbn. exact Hc2.
Qed.


End ProcessProofs.

Lemma process_guard_and_flag_witness :
  process (fun x => x) exampleApi []
    (mkClosure false false (Some 0%nat) clearHistories (emptyStreamingData 0)
               initialEstimate 0)
  = (Normal tt,
     mkClosure false false (Some 0%nat) clearHistories (emptyStreamingData 0)
               initialEstimate 0)
  /\ c_isProcessing (snd (process (fun x => x) exampleApi [] exampleClosure))
     = match fst (process (fun x => x) exampleApi [] exampleClosure) with
       | Normal _ => false
       | Abrupt _ => true
       end.
Proof.
  split.
  - apply (proj1 (process_guard_and_flag (fun x => x) exampleApi []
                    (mkClosure false false (Some 0%nat) clearHistories
                               (emptyStreamingData 0) initialEstimate 0))).
    right. reflexivity.
  - apply (proj2 (process_guard_and_flag (fun x => x) exampleApi []
                    exampleClosure)).
    + discriminate.
    + reflexivity.
Defined.

Lemma process_keeps_histories_capped_witness :
  Capped (c_histories (snd (process (fun x => x) exampleApi [] exampleClosure))).
Proof.
  apply (process_keeps_histories_capped (fun x => x) exampleApi [] exampleClosure).
  apply clearHistories_capped.
Defined.


End ComposableProofs.

(* ====================================================================== *)
(** ** Properties of the binding layer *)
(* ====================================================================== *)

Module WasmProofs.

Import Wasm.

Section BindingProofs.

Context {Handle NativeAnalyzer EmOptions : Type}.

Local Abbreviation ModState := (@ModuleState Handle NativeAnalyzer EmOptions).

Lemma init_invariant (options : option EmOptions) (s : ModState) :
  LoadInvariant s -> LoadInvariant (snd (init options s)).
Proof.
  intros [(Hp & Hi & Hm)|(ph & Hp & Hi & Hm)]; unfold init.
  - rewrite Hm, Hi, Hp. simpl. right. exists (Importing options).
    split; [reflexivity|]. split; [reflexivity|].
    split; [intros H; exfalso; apply H; reflexivity|discriminate].
  - destruct (module s) eqn:Em; simpl.
    + right. exists ph. rewrite Em. auto.
    + rewrite Hi. simpl. right. exists ph. rewrite Em. auto.
Qed.

Lemma resume_invariant (e : Event) (s s' : ModState) :
  LoadInvariant s -> resume e s = Some s' -> LoadInvariant s'.
Proof.
  intros [(Hp & Hi & Hm)|(ph & Hp & Hi & Hm)] Hres.
  - destruct e as [p|p m|p]; simpl in Hres; rewrite Hp in Hres;
      destruct p; discriminate.
  - right.
    destruct e as [p|p m|p]; simpl in Hres; rewrite Hp in Hres;
      (destruct p as [|p]; [|destruct p; discriminate]); simpl in Hres.
    + destruct ph; try discriminate. injection Hres as <-. simpl.
      exists Creating. repeat split; auto.
      * intros H. apply Hm in H. discriminate.
      * discriminate.
    + destruct ph; try discriminate. injection Hres as <-. simpl.
      exists Fulfilled. repeat split; auto. discriminate.
    + destruct ph; try discriminate; injection Hres as <-; simpl;
        exists Rejected; (repeat split; auto;
          [intros H; apply Hm in H; discriminate | discriminate]).
Qed.

Lemma reachable_invariant (s : ModState) : Reachable s -> LoadInvariant s.
Proof.
  induction 1 as [|s s' _ IH Hstep].
  - left. auto.
  - destruct Hstep as [options s|e s s' Hres].
    + apply init_invariant, IH.
    + eapply resume_invariant; eauto.
Qed.

(** A call of [init] leaves at least one promise behind, and promises are
    never dropped: [promises s <> []] says that [init] has been called. *)
Lemma init_starts_load (options : option EmOptions) (s : ModState) :
  LoadInvariant s -> promises (snd (init options s)) <> [].
Proof.
  intros Hinv. apply (init_invariant options) in Hinv. unfold init in *.
  destruct (module s) eqn:Em; simpl in *.
  - destruct Hinv as [(Hp & _ & Hm)|(ph & Hp & _)]; congruence.
  - destruct (initPromise s) eqn:Ei; simpl in *.
    + destruct Hinv as [(Hp & Hi & _)|(ph & Hp & _)]; congruence.
    + intros H. apply app_eq_nil in H. destruct H as [_ H]. discriminate H.
Qed.

Lemma step_keeps_promises (s s' : ModState) :
  LoadInvariant s -> Step s s' -> promises s <> [] -> promises s' <> [].
Proof.
  intros Hinv Hstep Hne. destruct Hstep as [options s|e s s' Hres].
  - apply init_starts_load, Hinv.
  - destruct e as [p|p m|p]; simpl in Hres;
      destruct (nth_error (promises s) p) as [[]|] eqn:En;
      try discriminate; injection Hres as <-; simpl;
      destruct (promises s); try congruence; destruct p; simpl; discriminate.
Qed.

Lemma analysisExports_count :
  length (@analysisExports Handle NativeAnalyzer EmOptions) = 36%nat.
Proof. reflexivity. Qed.

Lemma guarded_throws {A : Type} (k : WasmModule -> M A) (s : ModState) :
  module s = None -> bind requireModule k s = (Throw NOT_INITIALIZED, s).
Proof.
  intros Hm. unfold bind, requireModule. rewrite Hm. reflexivity.
Qed.

Lemma guarded_runs {A : Type} (k : WasmModule -> M A) (s : ModState)
    (m : WasmModule) :
  module s = Some m -> bind requireModule k s = k m s.
Proof.
  intros Hm. unfold bind, requireModule. rewrite Hm. reflexivity.
Qed.

Lemma delegate_throws (name : string) (params : list Value) (s : ModState) :
  module s = None -> delegate name params s = (Throw NOT_INITIALIZED, s).
Proof. apply guarded_throws. Qed.

Lemma bind_throws {A B : Type} (c : M A) (k : A -> M B) (s : ModState) (e : string) :
  c s = (Throw e, s) -> bind c k s = (Throw e, s).
Proof. intros H. unfold bind. rewrite H. reflexivity. Qed.

(** C7: [init] called on a fresh module state starts the load and answers
    with a promise that follows it.  At any later turn, another call of
    [init] changes nothing (so starts no second load: there is exactly one
    promise), answers at once when the module is assigned, and otherwise
    answers with the promise of the first call; [isInitialized] changes
    nothing, and it is false exactly while the module is unassigned, which
    is until the loading task is fulfilled. *)
Theorem init_idempotent_and_shared :
  forall (s : ModState) (options : option EmOptions),
    Reachable s ->
    promises s <> [] ->
    init options (initialModuleState : ModState)
    = (Follows 0, mkModuleState None (Some 0%nat) [Importing options])
    /\ snd (init options s) = s
    /\ length (promises s) = 1%nat
    /\ (module s <> None -> fst (init options s) = ResolvedUndefined)
    /\ (module s = None ->
        initPromise s = Some 0%nat /\ fst (init options s) = Follows 0)
    /\ snd (isInitialized s) = s
    /\ (fst (isInitialized s) = Return false <-> module s = None)
    /\ (module s = None <-> nth_error (promises s) 0 <> Some Fulfilled).
Proof.
  intros s options Hreach Hstarted.
  apply reachable_invariant in Hreach.
  destruct Hreach as [(Hp & _)|(ph & Hp & Hi & Hm)]; [contradiction|].
  split; [reflexivity|].
  unfold init, isInitialized. rewrite Hp, Hi. simpl.
  destruct (module s) as [m|] eqn:Em; simpl.
  - split; [reflexivity|]. split; [reflexivity|].
    split; [reflexivity|]. split; [discriminate|]. split; [reflexivity|].
    split; [split; discriminate|].
    split; [discriminate|].
    intros H. exfalso. apply H. f_equal. apply Hm. discriminate.
  - split; [reflexivity|]. split; [reflexivity|].
    split; [intros H; exfalso; apply H; reflexivity|].
    split; [intros _; split; reflexivity|]. split; [reflexivity|].
    split; [split; reflexivity|].
    split; [|reflexivity].
    intros _ Hf. injection Hf as Hph.
    apply (proj2 Hm Hph). reflexivity.
Qed.

(** C9: while the module is unassigned, every exported analysis function and
    the [StreamAnalyzer] constructor throw "Module not initialized. Call
    init() first." and leave the module state as it was. *)
Theorem exports_throw_when_uninitialized :
  forall (s : ModState),
    module s = None ->
    (forall name f args,
        In (name, f) analysisExports -> f args s = (Throw NOT_INITIALIZED, s))
    /\ (forall config, newStreamAnalyzer config s = (Throw NOT_INITIALIZED, s)).
Proof.
  intros s Hm. split.
  - assert (Hall : Forall (fun nf : string * (list Value -> M Value) =>
                             forall args, snd nf args s = (Throw NOT_INITIALIZED, s))
                          analysisExports).
    { unfold analysisExports.
      repeat (apply Forall_cons;
              [simpl; intros args;
               first [ apply delegate_throws; exact Hm
                     | apply bind_throws, delegate_throws; exact Hm ]|]).
      apply Forall_nil. }
    intros name f args Hin.
    exact (proj1 (Forall_forall _ _) Hall (name, f) Hin args).
  - intros config. apply guarded_throws. exact Hm.
Qed.

(** C8: with the module assigned, the constructor calls the native
    constructor once on the sample rate and on each optional field, or its
    default when the field is left out (2048, 512, 128, true, true, true, 1),
    wraps what it returns and leaves the module state alone; the instance
    depends on the configuration through these arguments only. *)
Theorem constructor_resolves_defaults :
  forall (s : ModState) (m : WasmModule) (config : StreamConfig),
    module s = Some m ->
    newStreamAnalyzer config s
    = (bindOutcome (wasm_StreamAnalyzer m (constructorArgs config))
                   (fun a => Return (mkStreamAnalyzer a)), s)
    /\ constructorArgs config
       = {| na_sampleRate := sampleRate config;
            na_nFft := match nFft config with Some v => v | None => 2048 end;
            na_hopLength := match hopLength config with Some v => v | None => 512 end;
            na_nMels := match nMels config with Some v => v | None => 128 end;
            na_computeMel := match computeMel config with Some b => b | None => true end;
            na_computeChroma :=
              match computeChroma config with Some b => b | None => true end;
            na_computeOnset :=
              match computeOnset config with Some b => b | None => true end;
            na_emitEveryNFrames :=
              match emitEveryNFrames config with Some v => v | None => 1 end |}
    /\ newStreamAnalyzer config s
       = newStreamAnalyzer (explicitConfig (constructorArgs config)) s.
Proof.
  intros s m config Hm. unfold newStreamAnalyzer.
  rewrite !(guarded_runs _ s m Hm). unfold lift.
  repeat split.
Qed.

(** C6, against the native constructor as the specification describes it:
    when the module's analyzer class rejects a non-positive sample rate, a
    non-positive hop length and a hop length not below the FFT size, the
    constructor throws for every configuration whose resolved values break
    one of the three conditions, and so does it without a module. *)
Theorem constructor_rejects_invalid_configuration :
  forall (s : ModState) (allocate : NativeArgs -> NativeAnalyzer)
         (config : StreamConfig),
    (forall m a, module s = Some m ->
                 wasm_StreamAnalyzer m a = specNativeStreamAnalyzer allocate a) ->
    sampleRate config <= 0
    \/ nullish (hopLength config) 512 <= 0
    \/ nullish (nFft config) 2048 <= nullish (hopLength config) 512 ->
    exists message, newStreamAnalyzer config s = (Throw message, s).
Proof.
  intros s allocate config Hnative Hbad. unfold newStreamAnalyzer.
  destruct (module s) as [m|] eqn:Em.
  - rewrite (guarded_runs _ s m Em). unfold lift.
    rewrite (Hnative m _ eq_refl). unfold specNativeStreamAnalyzer, constructorArgs.
    simpl.
    destruct (Z.leb_spec (sampleRate config) 0);
      destruct (Z.leb_spec (nullish (nFft config) 2048) (nullish (hopLength config) 512));
      destruct (Z.leb_spec (nullish (hopLength config) 512) 0);
      simpl; try (eexists; reflexivity); lia.
  - exists NOT_INITIALIZED. apply guarded_throws. exact Em.
Qed.

(** *** After the load has settled; what the exports read and leave *)

Local Abbreviation JsVal := (@Value Handle).

(** X18: once the loading promise is fulfilled or rejected, no call of
    [init] and no continuation changes the module state any more: a loaded
    module is never replaced, and after a failed load the module stays
    unassigned and every [init] answers with the rejected promise, without a
    new attempt. *)
Theorem settled_state_is_final :
  forall (s s' : ModState) (options : option EmOptions),
    Reachable s -> Step s s' ->
    (nth_error (promises s) 0 = Some Fulfilled -> s' = s /\ module s <> None)
    /\ (nth_error (promises s) 0 = Some Rejected ->
        s' = s /\ module s = None /\ init options s = (Follows 0, s)).
Proof.
  intros s s' options Hreach Hstep.
  apply reachable_invariant in Hreach.
  assert (Hfrozen : forall ph,
             promises s = [ph] -> initPromise s = Some 0%nat ->
             ph = Fulfilled \/ ph = Rejected -> s' = s).
  { intros ph Hp Hi Hph.
    destruct Hstep as [o s|e s s' Hres].
    - unfold init. destruct (module s); [reflexivity|]. rewrite Hi. reflexivity.
    - exfalso.
      destruct e as [p|p m|p]; simpl in Hres; rewrite Hp in Hres;
        (destruct p as [|p]; [|destruct p; discriminate]); simpl in Hres;
        destruct Hph as [-> | ->]; discriminate. }
  destruct Hreach as [(Hp & _)|(ph & Hp & Hi & Hm)].
  - rewrite Hp. split; discriminate.
  - rewrite Hp. simpl. split.
    + intros [= ->]. split; [eapply Hfrozen; eauto|]. apply Hm. reflexivity.
    + intros [= ->].
      assert (Hnone : module s = None).
      { destruct (module s) eqn:Em; [|reflexivity].
        exfalso. assert (Hf : Rejected = Fulfilled) by (apply Hm; discriminate).
        discriminate Hf. }
      split; [eapply Hfrozen; eauto|]. split; [exact Hnone|].
      unfold init. rewrite Hnone, Hi. reflexivity.
Qed.

Lemma delegate_state (name : string) (params : list JsVal) (s : ModState) :
  snd (delegate name params s) = s.
Proof.
  unfold delegate, bind, requireModule, lift.
  destruct (module s); [|reflexivity].
  destruct (wasm_call _ _ _); reflexivity.
Qed.

Lemma delegate_then_state (name : string) (params : list JsVal)
    (k : JsVal -> Outcome JsVal) (s : ModState) :
  snd (bind (delegate name params) (fun r => lift (k r)) s) = s.
Proof.
  unfold delegate, bind, requireModule, lift.
  destruct (module s); [|reflexivity].
  destruct (wasm_call _ _ _); reflexivity.
Qed.

(** X19: no exported analysis function, nor [isInitialized], nor the
    [StreamAnalyzer] constructor ever changes the module state, whether the
    module is assigned or not and whether the native call returns or
    throws. *)
Theorem exports_leave_module_state :
  forall (s : ModState),
    (forall name f args, In (name, f) analysisExports -> snd (f args s) = s)
    /\ snd (isInitialized s) = s
    /\ (forall config, snd (newStreamAnalyzer config s) = s).
Proof.
  intros s. split; [|split].
  - assert (Hall : Forall (fun nf : string * (list JsVal -> M JsVal) =>
                             forall args, snd (snd nf args s) = s)
                          analysisExports).
    { unfold analysisExports.
      repeat (apply Forall_cons;
              [simpl; intros args;
               first [ apply delegate_state | apply delegate_then_state ]|]).
      apply Forall_nil. }
    intros name f args Hin.
    exact (proj1 (Forall_forall _ _) Hall (name, f) Hin args).
  - reflexivity.
  - intros config. unfold newStreamAnalyzer, bind, requireModule, lift.
    destruct (module s); [|reflexivity].
    destruct (wasm_StreamAnalyzer _ _); reflexivity.
Qed.

Lemma arg_snoc_undefined (i : nat) (args : list JsVal) :
  arg i (args ++ [Undefined]) = arg i args.
Proof.
  unfold arg. revert i. induction args as [|a args IH]; intros [|i]; simpl; auto.
  destruct i; reflexivity.
Qed.

Lemma arg_firstn (n i : nat) (args : list JsVal) :
  (i < n)%nat -> arg i (firstn n args) = arg i args.
Proof.
  unfold arg. revert n i. induction args as [|a args IH]; intros n i Hi.
  - rewrite firstn_nil. reflexivity.
  - destruct n as [|n]; [lia|]. destruct i as [|i]; simpl; [reflexivity|].
    apply IH. lia.
Qed.

(** X20: an exported analysis function reads its first seven parameters
    only, and a parameter that is left out is the same as one passed as
    [undefined]: two argument lists that agree on positions 0..6 give the
    same call, so a trailing [undefined] and any eighth and later arguments
    make no difference. *)
Theorem exports_read_seven_parameters :
  forall (s : ModState) name f (args args' : list JsVal),
    In (name, f) analysisExports ->
    ((forall i, (i < 7)%nat -> arg i args = arg i args') ->
     f args s = f args' s)
    /\ f (args ++ [Undefined]) s = f args s
    /\ f (firstn 7 args) s = f args s.
Proof.
  intros s name f args args' Hin.
  assert (Hall : Forall (fun nf : string * (list JsVal -> M JsVal) =>
                           forall a a' : list JsVal,
                             (forall i, (i < 7)%nat -> arg i a = arg i a') ->
                             snd nf a s = snd nf a' s)
                        analysisExports).
  { unfold analysisExports.
    repeat (apply Forall_cons;
            [cbn [snd]; intros a a' H;
             cbv delta [version detectBpm detectKey detectOnsets detectBeats
                        analyze analyzeWithProgress hpss harmonic percussive
                        timeStretch pitchShift normalize trim stft stftDb
                        melSpectrogram mfcc chroma spectralCentroid
                        spectralBandwidth spectralRolloff spectralFlatness
                        zeroCrossingRate rmsEnergy pitchYin pitchPyin hzToMel
                        melToHz hzToMidi midiToHz hzToNote noteToHz
                        framesToTime timeToFrames resample];
             cbv beta; rewrite ?H by lia; reflexivity|]).
    apply Forall_nil. }
  pose proof (proj1 (Forall_forall _ _) Hall (name, f) Hin) as Hf. simpl in Hf.
  split; [apply Hf|]. split.
  - apply Hf. intros i _. apply arg_snoc_undefined.
  - apply Hf. intros i Hi. apply arg_firstn. exact Hi.
Qed.

End BindingProofs.

(** *** The conversions of native results *)

Section ConversionProofs.

Context {Handle : Type}.

Local Abbreviation JsVal := (@Value Handle).

Lemma isUndefined_true (v : JsVal) : isUndefined v = true -> v = Undefined.
Proof. destruct v; simpl; intros H; try discriminate; reflexivity. Qed.

Lemma get_defined (k : string) (v : JsVal) :
  isUndefined v = false -> get k v = Return (field k v).
Proof. destruct v; simpl; intros H; try discriminate; reflexivity. Qed.

Lemma copyFields_defined (names : list string) (v : JsVal) :
  isUndefined v = false ->
  copyFields names v = Return (map (fun k => (k, field k v)) names).
Proof.
  intros Hv. induction names as [|k names IH]; simpl; [reflexivity|].
  rewrite (get_defined k v Hv), IH. reflexivity.
Qed.

Lemma copyFields_success (k : string) (names : list string) (v : JsVal)
    (fields : list (string * JsVal)) :
  copyFields (k :: names) v = Return fields -> isUndefined v = false.
Proof. destruct v; simpl; intros H; try discriminate; reflexivity. Qed.

Lemma copyObject_defined (names : list string) (v : JsVal) :
  isUndefined v = false ->
  copyObject names v = Return (Obj (map (fun k => (k, field k v)) names)).
Proof.
  intros Hv. unfold copyObject. rewrite (copyFields_defined names v Hv).
  reflexivity.
Qed.

Lemma mapOutcome_defined (names : list string) (items : list JsVal) :
  forallb (fun x => negb (isUndefined x)) items = true ->
  mapOutcome (copyObject names) items
  = Return (map (fun v => Obj (map (fun k => (k, field k v)) names)) items).
Proof.
  induction items as [|x items IH]; simpl; intros H; [reflexivity|].
  apply andb_true_iff in H. destruct H as [Hx Hrest].
  apply negb_true_iff in Hx.
  rewrite (copyObject_defined names x Hx). simpl. rewrite (IH Hrest).
  reflexivity.
Qed.

Lemma mapOutcome_undefined (k : string) (names : list string) (items : list JsVal) :
  forallb (fun x => negb (isUndefined x)) items = false ->
  mapOutcome (copyObject (k :: names)) items = Throw TYPE_ERROR.
Proof.
  induction items as [|x items IH]; simpl; intros H; [discriminate|].
  destruct (isUndefined x) eqn:Ex.
  - apply isUndefined_true in Ex. subst x. reflexivity.
  - simpl in H. rewrite (copyObject_defined (k :: names) x Ex).
    cbn [bindOutcome]. rewrite (IH H). reflexivity.
Qed.

Lemma mapArr_defined (names : list string) (v : JsVal) :
  definedArray v = true ->
  exists items,
    v = Arr items
    /\ mapArr (copyObject names) v
       = Return (Arr (map (fun x => Obj (map (fun k => (k, field k x)) names))
                          items)).
Proof.
  destruct v; simpl; intros H; try discriminate.
  eexists. split; [reflexivity|]. rewrite (mapOutcome_defined names _ H).
  reflexivity.
Qed.

Lemma mapArr_undefined (k : string) (names : list string) (v : JsVal) :
  definedArray v = false ->
  mapArr (copyObject (k :: names)) v = Throw TYPE_ERROR.
Proof.
  destruct v; simpl; intros H; try reflexivity.
  rewrite (mapOutcome_undefined k names _ H). reflexivity.
Qed.

Lemma mapArr_result (f : JsVal -> Outcome JsVal) (v r : JsVal) :
  mapArr f v = Return r -> isArray r = true.
Proof.
  destruct v; simpl; try discriminate.
  destruct (mapOutcome f items); simpl; [|discriminate].
  intros [= <-]. reflexivity.
Qed.

(** X21: [convertAnalysisResult] returns exactly for the native results that
    are not [undefined], have a [key] that is not [undefined] and have
    [chords] and [sections] arrays without [undefined] elements; it then
    returns an object with the eleven result fields, the eight plain ones
    passed through unchanged.  For every other native result it throws a
    [TypeError]. *)
Theorem convertAnalysisResult_characterised :
  forall wasm : JsVal,
    (convertible wasm = true ->
     exists fields,
       convertAnalysisResult wasm = Return (Obj fields)
       /\ map fst fields = RESULT_FIELDS
       /\ forall k,
            In k ["bpm"; "bpmConfidence"; "timeSignature"; "beats"; "timbre";
                  "dynamics"; "rhythm"; "form"]%string ->
            lookupField k fields = field k wasm)
    /\ (convertible wasm = false ->
        convertAnalysisResult wasm = Throw TYPE_ERROR).
Proof.
  intros wasm. unfold convertible, convertAnalysisResult.
  destruct (isUndefined wasm) eqn:Ew.
  { apply isUndefined_true in Ew. subst wasm. simpl.
    split; [discriminate|reflexivity]. }
  rewrite !(get_defined _ wasm Ew). cbn [bindOutcome negb andb].
  destruct (isUndefined (field "key" wasm)) eqn:Ek.
  { apply isUndefined_true in Ek. rewrite Ek. simpl.
    split; [discriminate|reflexivity]. }
  rewrite (copyObject_defined KEY_FIELDS _ Ek). cbn [bindOutcome negb andb].
  destruct (definedArray (field "chords" wasm)) eqn:Ec.
  2:{ rewrite (mapArr_undefined _ _ _ Ec). simpl.
      split; [discriminate|reflexivity]. }
  destruct (mapArr_defined
              ["root"; "quality"; "start"; "end"; "confidence"; "name"]%string
              _ Ec) as (cs & _ & ->).
  cbn [bindOutcome andb].
  destruct (definedArray (field "sections" wasm)) eqn:Es.
  2:{ rewrite (mapArr_undefined _ _ _ Es). simpl.
      split; [discriminate|reflexivity]. }
  destruct (mapArr_defined
              ["type"; "start"; "end"; "energyLevel"; "confidence"; "name"]%string
              _ Es) as (ss & _ & ->).
  cbn [bindOutcome]. split; [|discriminate].
  intros _. eexists. split; [reflexivity|]. split; [reflexivity|].
  intros k Hin. simpl in Hin.
  repeat (destruct Hin as [<-|Hin]; [reflexivity|]). destruct Hin.
Qed.

Lemma orElse_defined (a b : JsVal) :
  isUndefined b = false -> isUndefined (orElse a b) = false.
Proof.
  intros Hb. unfold orElse. destruct (truthy a) eqn:Ea; [|exact Hb].
  destruct a; simpl in *; try reflexivity. discriminate.
Qed.

(** X22: when [stats()] returns, the four lists of its estimate
    ([chordProgression], [barChordProgression], [votedPattern],
    [allPatternScores]) are arrays and [detectedPatternName] and
    [detectedPatternScore] are not [undefined], even if the native estimate
    left [votedPattern], [allPatternScores], the name or the score out; the
    three totals are those of the native result. *)
Theorem stats_estimate_is_complete :
  forall s r : JsVal,
    statsResult s = Return r ->
    isArray (field "chordProgression" (field "estimate" r)) = true
    /\ isArray (field "barChordProgression" (field "estimate" r)) = true
    /\ isArray (field "votedPattern" (field "estimate" r)) = true
    /\ isArray (field "allPatternScores" (field "estimate" r)) = true
    /\ isUndefined (field "detectedPatternName" (field "estimate" r)) = false
    /\ isUndefined (field "detectedPatternScore" (field "estimate" r)) = false
    /\ field "totalFrames" r = field "totalFrames" s
    /\ field "totalSamples" r = field "totalSamples" s
    /\ field "durationSeconds" r = field "durationSeconds" s.
Proof.
  intros s r H. unfold statsResult in H.
  repeat match type of H with
         | bindOutcome ?o _ = Return _ =>
             let E := fresh "E" in
             destruct o eqn:E; cbn [bindOutcome] in H; [|discriminate H]
         end.
  injection H as <-.
  match goal with
  | E : copyFields _ s = Return _ |- _ =>
      pose proof (copyFields_success _ _ _ _ E) as Hs
  end.
  match goal with
  | E : get "estimate" s = Return ?e, E' : copyFields _ ?e = Return _ |- _ =>
      pose proof (copyFields_success _ _ _ _ E') as He
  end.
  repeat match goal with
         | E : copyFields ?names ?v = Return _ |- _ =>
             rewrite (copyFields_defined names v ltac:(assumption)) in E;
             injection E as <-
         end.
  repeat match goal with
         | E : mapArr _ _ = Return _ |- _ => apply mapArr_result in E
         end.
  cbn.
  repeat split; try assumption; try reflexivity;
    apply orElse_defined; reflexivity.
Qed.

End ConversionProofs.

Lemma stats_estimate_is_complete_witness :
  exists r,
    statsResult exampleNativeStats = Return r
    /\ isArray (field "votedPattern" (field "estimate" r)) = true.
Proof.
  eexists. split.
  - vm_compute. reflexivity.
  - refine (proj1 (proj2 (proj2 (stats_estimate_is_complete exampleNativeStats
                                   _ _)))).
    vm_compute. reflexivity.
Defined.

Lemma exports_leave_module_state_witness :
  snd (analyze [Num 1; Num 44100] exampleLoaded) = exampleLoaded.
Proof.
  apply (proj1 (exports_leave_module_state exampleLoaded) "analyze"%string).
  simpl. tauto.
Defined.

Lemma convertAnalysisResult_characterised_witness :
  @convertAnalysisResult unit (Obj [("bpm", Num 120)]%string) = Throw TYPE_ERROR.
Proof.
  apply (proj2 (convertAnalysisResult_characterised
                  (Obj [("bpm", Num 120)]%string))).
  reflexivity.
Defined.

Lemma settled_state_is_final_witness :
  snd (init None exampleLoaded) = exampleLoaded /\ module exampleLoaded <> None.
Proof.
  assert (Hreach : Reachable exampleLoaded).
  { eapply ReachStep.
    - eapply ReachStep.
      + eapply ReachStep; [apply ReachInitial|apply (StepInit None)].
      + apply (StepResume (ImportResolved 0)). reflexivity.
    - apply (StepResume (CreateResolved 0 exampleModule)). reflexivity. }
  apply (proj1 (settled_state_is_final exampleLoaded _ None Hreach
                  (StepInit None exampleLoaded))).
  reflexivity.
Defined.

Lemma exports_read_seven_parameters_witness :
  hpss [Num 1; Num 44100] exampleLoaded
  = hpss [Num 1; Num 44100; Undefined; Undefined; Undefined; Undefined;
          Undefined; Str "extra"] exampleLoaded.
Proof.
  apply (proj1 (exports_read_seven_parameters exampleLoaded "hpss"%string hpss
                  [Num 1; Num 44100]
                  [Num 1; Num 44100; Undefined; Undefined; Undefined; Undefined;
                   Undefined; Str "extra"]
                  ltac:(simpl; tauto))).
  intros i Hi.
  do 7 (destruct i as [|i]; [reflexivity|]). lia.
Defined.

Lemma init_idempotent_and_shared_witness :
  snd (init None examplePending) = examplePending
  /\ fst (init None examplePending) = Follows 0.
Proof.
  assert (Hreach : Reachable examplePending).
  { eapply ReachStep; [apply ReachInitial|]. apply (StepInit None). }
  assert (Hstarted : promises examplePending <> []) by (vm_compute; discriminate).
  destruct (init_idempotent_and_shared examplePending None Hreach Hstarted)
    as (_ & Hsame & _ & _ & Hpending & _).
  split; [exact Hsame|]. apply Hpending. reflexivity.
Defined.

Lemma exports_throw_when_uninitialized_witness :
  detectBpm [] (@initialModuleState unit unit unit)
  = (Throw NOT_INITIALIZED, initialModuleState)
  /\ newStreamAnalyzer (mkStreamConfig 44100 None None None None None None None)
       (@initialModuleState unit unit unit)
     = (Throw NOT_INITIALIZED, initialModuleState).
Proof.
  destruct (exports_throw_when_uninitialized
              (@initialModuleState unit unit unit) eq_refl) as [Hexp Hnew].
  split.
  - apply (Hexp "detectBpm"%string). simpl. auto.
  - apply Hnew.
Defined.

Lemma constructor_resolves_defaults_witness :
  newStreamAnalyzer (mkStreamConfig 44100 None (Some 256) None None None None None)
    exampleLoaded
  = (Return (mkStreamAnalyzer (mkNativeArgs 44100 2048 256 128 true true true 1)),
     exampleLoaded).
Proof.
  destruct (constructor_resolves_defaults exampleLoaded exampleModule
              (mkStreamConfig 44100 None (Some 256) None None None None None)
              eq_refl) as (Hcall & _ & _).
  rewrite Hcall. reflexivity.
Defined.

Lemma constructor_rejects_invalid_configuration_witness :
  exists message,
    newStreamAnalyzer (mkStreamConfig 44100 (Some 512) None None None None None None)
      exampleLoaded
    = (Throw message, exampleLoaded).
Proof.
  apply (constructor_rejects_invalid_configuration exampleLoaded (fun a => a)).
  - intros m a [= <-]. reflexivity.
  - right. right. simpl. lia.
Defined.

End WasmProofs.

(* ====================================================================== *)
(** ** Properties of the configuration of the composable *)
(* ====================================================================== *)

Module ComposableConfigProofs.

Import Wasm ComposableConfig.

Lemma nullish_spread {A : Type} (d : A) (o : Optional A) :
  nullish (spread d o) d = nullish (readOption o) d.
Proof. destruct o; reflexivity. Qed.

Lemma reinits_keep_spread (options : Options) (rates : list Z) (config : StreamConfig) :
  let config' := fold_left (fun c r => reinitConfig r options c) rates config in
  nMels config' = nMels config
  /\ computeMel config' = computeMel config
  /\ computeChroma config' = computeChroma config
  /\ computeOnset config' = computeOnset config
  /\ emitEveryNFrames config' = emitEveryNFrames config.
Proof.
  revert config. induction rates as [|r rates IH]; intro config; cbn.
  - repeat split.
  - destruct (IH (reinitConfig r options config)) as (H1 & H2 & H3 & H4 & H5).
    cbn in H1, H2, H3, H4, H5. repeat split; assumption.
Qed.

(** X23: the analyzer that the composable constructs in [init] receives the
    native arguments that the caller's options would give if passed straight
    to [StreamAnalyzer], an option set to [undefined] falling back to the
    default like one left out; after any number of calls of [reinit] they are
    the same except for the sample rate, which is that of the last call; and
    the mel band count used for the streaming data is always the one handed
    to the native constructor. *)
Theorem composable_config_agrees_with_binding :
  forall (options : Options) (rates : list Z) (r : Z),
    constructorArgs (defaultConfig options) = constructorArgs (asConfig options)
    /\ constructorArgs (afterReinits options (rates ++ r :: nil))
       = constructorArgs (asConfig (withSampleRate r options))
    /\ melBands (afterReinits options rates)
       = na_nMels (constructorArgs (afterReinits options rates)).
Proof.
  intros options rates r. split; [|split].
  - unfold constructorArgs, defaultConfig, asConfig. cbn.
    rewrite !nullish_spread. reflexivity.
  - unfold afterReinits. rewrite fold_left_app. cbn [fold_left].
    destruct (reinits_keep_spread options rates (defaultConfig options))
      as (H1 & H2 & H3 & H4 & H5).
    cbn zeta in H1, H2, H3, H4, H5.
    set (config := fold_left _ rates _) in *.
    unfold constructorArgs, reinitConfig, asConfig, withSampleRate.
    cbn [sampleRate nFft hopLength nMels computeMel computeChroma computeOnset
         emitEveryNFrames o_sampleRate o_nFft o_hopLength o_nMels
         o_computeMel o_computeChroma o_computeOnset o_emitEveryNFrames nullish].
    rewrite H1, H2, H3, H4, H5. unfold defaultConfig. cbn.
    rewrite !nullish_spread. reflexivity.
  - reflexivity.
Qed.

End ComposableConfigProofs.

(* ====================================================================== *)
(** ** Properties of the normalization gain *)
(* ====================================================================== *)

Module GainProofs.

Import Gain.






End GainProofs.
